(** * opengnk proxy: sanitization pipeline, streaming restorer, upstream
      dispatcher, signer and tool-call simulator

    A shallow embedding of the Go sources.  Go [string] and [[]byte] values
    are byte sequences ([list byte]); Go [int] and [uint64] values are [Z]
    with the wrap-around written out where the code can reach it; Go maps
    are [gmap]s, Go sets ([map[string]bool]) are [gset]s. *)

From Stdlib Require Import ZArith List Lia Bool.
From Stdlib.Strings Require Import String Ascii Byte.
From stdpp Require Import gmap list sorting.

(** ** Byte strings *)

Abbreviation bytes := (list byte).

#[global] Instance byte_eq_dec : EqDecision byte := Byte.byte_eq_dec.
#[global] Instance byte_countable : Countable byte :=
  inj_countable Byte.to_N Byte.of_N Byte.of_to_N.

(** A Go string literal: the UTF-8 bytes of the source text. *)
Definition B (s : String.string) : bytes := list_byte_of_string s.

(** A literal that contains double quotes, written with single quotes in
    their place. *)
Definition Q (s : String.string) : bytes :=
  map (fun c => if decide (c = "'"%byte) then x22 else c) (B s).

Definition byteZ (b : byte) : Z := Z.of_N (Byte.to_N b).

Definition byteOfZ (z : Z) : byte :=
  match Byte.of_N (Z.to_N z) with Some b => b | None => x00 end.

(** [s[a:b]] on a Go string or slice: it panics ([None]) unless
    [0 <= a <= b <= len(s)]. *)
Definition slice (s : bytes) (a b : Z) : option bytes :=
  if ((0 <=? a) && (a <=? b) && (b <=? Z.of_nat (length s)))%Z
  then Some (take (Z.to_nat b - Z.to_nat a) (drop (Z.to_nat a) s))
  else None.

(** [s[:b]] and [s[a:]]. *)
Definition sliceTo (s : bytes) (b : Z) : option bytes := slice s 0 b.
Definition sliceFrom (s : bytes) (a : Z) : option bytes :=
  slice s a (Z.of_nat (length s)).

(** [s[i]]: panics ([None]) out of range. *)
Definition index (s : bytes) (i : Z) : option byte :=
  if (0 <=? i)%Z then s !! Z.to_nat i else None.

(** [strings.HasPrefix(s, p)]. *)
Fixpoint hasPrefix (s p : bytes) {struct p} : bool :=
  match p, s with
  | [], _ => true
  | _ :: _, [] => false
  | c :: p', d :: s' => if decide (c = d) then hasPrefix s' p' else false
  end.

(** [strings.ReplaceAll(s, old, new)] for a non-empty [old]: the
    non-overlapping occurrences of [old] are replaced from left to right.
    [skip] counts the bytes of an occurrence already replaced.  (With an
    empty [old] Go inserts [new] around every rune; the program only calls
    it with placeholders, which are never empty.) *)
Fixpoint replaceFrom (old new s : bytes) (skip : nat) : bytes :=
  match s with
  | [] => []
  | c :: s' =>
      match skip with
      | S k => replaceFrom old new s' k
      | O =>
          if hasPrefix s old
          then new ++ replaceFrom old new s' (length old - 1)
          else c :: replaceFrom old new s' 0
      end
  end.

Definition ReplaceAll (s old new : bytes) : bytes :=
  match old with
  | [] => s
  | _ => replaceFrom old new s 0
  end.

(** ** Package sanitize: token map and placeholders (sanitize.go) *)

Module Sanitize.

Local Open Scope Z_scope.

(** [Span]: [Start] and [End] are Go [int] byte offsets.  [Score] (a
    float32 confidence) is carried by the Go struct and never read by the
    sanitizer; it is left out. *)
Record Span := mkSpan { Start : Z; End : Z; Label : bytes }.

(** [TokenMap]: the two dictionaries of one request. *)
Record TokenMap := mkTokenMap {
  toToken : gmap bytes bytes;
  fromToken : gmap bytes bytes
}.

Definition newTokenMap : TokenMap := {| toToken := ∅; fromToken := ∅ |}.

Definition tokenPrefix : bytes := B "«TOKEN_".
Definition tokenSuffix : bytes := B "»".

(** [globalCounter.Add(1)] on an [atomic.Uint64]: the new value, modulo 2^64. *)
Definition counterAdd (g delta : Z) : Z := (g + delta) mod 2 ^ 64.

(** The decimal digits of an unsigned integer, as [fmt] writes them: the
    last digit is [u - (u/10)*10], the loop runs while [u >= 10].  A uint64
    has at most 20 digits, the size of the loop's bound here. *)
Fixpoint fmtUint (fuel : nat) (u : Z) : bytes :=
  match fuel with
  | O => []
  | S f =>
      if 10 <=? u
      then fmtUint f (u / 10) ++ [byteOfZ (48 + (u - (u / 10) * 10))]
      else [byteOfZ (48 + u)]
  end.

(** The verb [%06d]: zero-padded on the left to a width of at least six. *)
Definition fmt06d (u : Z) : bytes :=
  let ds := fmtUint 20 u in
  replicate (6 - length ds)%nat "0"%byte ++ ds.

(** [fmt.Sprintf("«TOKEN_%06d»", id)]. *)
Definition placeholder (id : Z) : bytes :=
  tokenPrefix ++ fmt06d id ++ tokenSuffix.

(** [TokenMap.register]: the state is the process-wide counter and the map. *)
Definition register (g : Z) (m : TokenMap) (original : bytes)
  : bytes * Z * TokenMap :=
  match toToken m !! original with
  | Some tok => (tok, g, m)
  | None =>
      let id := counterAdd g 1 in
      let tok := placeholder id in
      (tok, id,
       {| toToken := <[original := tok]> (toToken m);
          fromToken := <[tok := original]> (fromToken m) |})
  end.

(** [TokenMap.Restore].  Go ranges over [fromToken] in an unspecified
    order; [map_to_list] fixes one. *)
Definition Restore (m : TokenMap) (text : bytes) : bytes :=
  foldl (fun t '(tok, orig) => ReplaceAll t tok orig) text
        (map_to_list (fromToken m)).

Definition IsEmpty (m : TokenMap) : bool := bool_decide (size (toToken m) = 0%nat).

Definition Count (m : TokenMap) : nat := size (toToken m).

(** The process: one counter, and one TokenMap per request (a request that
    has registered nothing yet has the map [newTokenMap] made for it). *)
Record Process := mkProcess {
  globalCounter : Z;
  tokenMaps : gmap nat TokenMap
}.

Definition startProcess : Process := {| globalCounter := 0; tokenMaps := ∅ |}.

Definition tokenMapOf (p : Process) (req : nat) : TokenMap :=
  default newTokenMap (tokenMaps p !! req).

Definition registerIn (p : Process) (req : nat) (original : bytes)
  : bytes * Process :=
  let '(tok, g, m) := register (globalCounter p) (tokenMapOf p req) original in
  (tok, {| globalCounter := g; tokenMaps := <[req := m]> (tokenMaps p) |}).

(** A run of the process: register calls in the order the atomic counter
    serialises them; the placeholders returned, in order. *)
Fixpoint runRegisters (p : Process) (ops : list (nat * bytes))
  : list bytes * Process :=
  match ops with
  | [] => ([], p)
  | (req, original) :: ops' =>
      let '(tok, p1) := registerIn p req original in
      let '(toks, p2) := runRegisters p1 ops' in
      (tok :: toks, p2)
  end.

Definition isDigit (b : byte) : bool := (48 <=? byteZ b) && (byteZ b <=? 57).

(** The shape the specification gives a placeholder: exactly six digits. *)
Definition sixDigitPlaceholder (t : bytes) : Prop :=
  exists ds, t = tokenPrefix ++ ds ++ tokenSuffix
             /\ length ds = 6%nat /\ forallb isDigit ds = true.

(** The shape [%06d] gives it: at least six digits. *)
Definition paddedPlaceholder (t : bytes) : Prop :=
  exists ds, t = tokenPrefix ++ ds ++ tokenSuffix
             /\ (6 <= length ds)%nat /\ forallb isDigit ds = true.

(** *** Classifiers (classifier.go) *)

(** The two implementations of the [Classifier] interface: the NER sidecar
    client and the LLM client. *)
Inductive ClassifierKind := NER | LLM.

(** A classifier: [Classify] answers with spans or with an error ([None]).
    What the sidecar or the model answers is outside the program, hence a
    function of the text. *)
Record Classifier := mkClassifier {
  kind : ClassifierKind;
  Classify : bytes -> option (list Span)
}.

Record Sanitizer := mkSanitizer { classifiers : list Classifier }.

Definition New : Sanitizer := {| classifiers := [] |}.
Definition NewWithClassifiers (cls : list Classifier) : Sanitizer :=
  {| classifiers := cls |}.

(** *** Span validation *)

(** [tokenPlaceholderRe], the regular expression «TOKEN_\d+»: a match at
    the head of [s].  The closing » starts with a byte that is no digit, so
    the greedy \d+ never has to give a digit back. *)
Fixpoint skipDigits (s : bytes) : bytes :=
  match s with
  | c :: s' => if isDigit c then skipDigits s' else s
  | [] => []
  end.

Definition matchPlaceholderHere (s : bytes) : bool :=
  hasPrefix s tokenPrefix &&
  match drop (length tokenPrefix) s with
  | c :: r => isDigit c && hasPrefix (skipDigits r) tokenSuffix
  | [] => false
  end.

(** [tokenPlaceholderRe.MatchString(s)]: a match anywhere in [s]. *)
Fixpoint MatchString (s : bytes) : bool :=
  match s with
  | [] => false
  | _ :: s' => matchPlaceholderHere s || MatchString s'
  end.

(** [wordBoundaryBytes]: the table filled from the bytes of the string
    literal of the source: space, the escapes for tab, newline and carriage
    return, then < > ( ) , ; [ ] { }, the escaped double quote, the single
    quote and the backtick. *)
Definition wordBoundaryLiteral : bytes :=
  B " " ++ [x09; x0a; x0d] ++ B "<>(),;[]{}" ++ [x22] ++ B "'`".

Definition wordBoundaryBytes : byte -> bool :=
  foldl (fun t b => fun x => if decide (x = b) then true else t x)
        (fun _ => false) wordBoundaryLiteral.

Definition isWordBoundaryByte (b : byte) : bool := wordBoundaryBytes b.

(** [isRuneBoundary(s, i)]; [s[i]] panics out of range. *)
Definition isRuneBoundary (s : bytes) (i : Z) : option bool :=
  if (i =? 0) || (i =? Z.of_nat (length s)) then Some true
  else c ← index s i; Some (negb (Z.land (byteZ c) 0xC0 =? 0x80)).

(** The body of the loop of [validSpans] for one span: [Some true] when the
    span is appended to [out], [Some false] on a [continue]. *)
Definition keepSpan (text : bytes) (sp : Span) : option bool :=
  if (Start sp <? 0) || (End sp >? Z.of_nat (length text)) || (Start sp >=? End sp)
  then Some false
  else
    b1 ← isRuneBoundary text (Start sp);
    if negb b1 then Some false
    else
      b2 ← isRuneBoundary text (End sp);
      if negb b2 then Some false
      else
        sub ← slice text (Start sp) (End sp);
        if MatchString sub then Some false
        else
          before ← (if Start sp >? 0
                    then c ← index text (Start sp - 1); Some (isWordBoundaryByte c)
                    else Some true);
          if negb before then Some false
          else
            if End sp <? Z.of_nat (length text)
            then c ← index text (End sp); Some (isWordBoundaryByte c)
            else Some true.

Fixpoint validSpans (text : bytes) (spans : list Span) : option (list Span) :=
  match spans with
  | [] => Some []
  | sp :: rest =>
      k ← keepSpan text sp;
      out ← validSpans text rest;
      Some (if (k : bool) then sp :: out else out)
  end.

(** *** Sorting and deduplication *)

(** The inner loop of [sortSpansDesc]:
    [for j := i; j > 0 && spans[j].Start > spans[j-1].Start; j--] swaps
    [spans[j]] and [spans[j-1]]. *)
Fixpoint sortInner (spans : list Span) (j : nat) : list Span :=
  match j with
  | O => spans
  | S j' =>
      match spans !! j, spans !! j' with
      | Some a, Some b =>
          if Start a >? Start b
          then sortInner (<[j' := a]> (<[j := b]> spans)) j'
          else spans
      | _, _ => spans
      end
  end.

(** The outer loop, [for i := 1; i < len(spans); i++], with [n] iterations
    left. *)
Fixpoint sortOuter (spans : list Span) (i n : nat) : list Span :=
  match n with
  | O => spans
  | S n' => sortOuter (sortInner spans i) (S i) n'
  end.

Definition sortSpansDesc (spans : list Span) : list Span :=
  sortOuter spans 1 (length spans - 1).

(** The inner loop seen on the list: the span [x] that follows the sorted
    prefix moves left past every span with a smaller [Start].  [rpre] is the
    prefix in reverse, nearest neighbour first. *)
Fixpoint insertRev (rpre : list Span) (x : Span) : list Span :=
  match rpre with
  | [] => [x]
  | y :: r => if Start x >? Start y then y :: insertRev r x else x :: y :: r
  end.

(** The loop of [deduplicateSpans], with the running [lastStart]. *)
Fixpoint dedupFrom (lastStart : Z) (spans : list Span) : list Span :=
  match spans with
  | [] => []
  | sp :: rest =>
      if (lastStart =? -1) || (End sp <=? lastStart)
      then sp :: dedupFrom (Start sp) rest
      else dedupFrom lastStart rest
  end.

Definition deduplicateSpans (spans : list Span) : list Span := dedupFrom (-1) spans.

(** *** Redaction *)

(** The replacement loop of [redactText] and [redactTextWithNER]; a slice
    out of range panics ([None]). *)
Fixpoint redactLoop (spans : list Span) (text : bytes) (g : Z) (tm : TokenMap)
  : option (bytes * Z * TokenMap) :=
  match spans with
  | [] => Some (text, g, tm)
  | sp :: rest =>
      matched ← slice text (Start sp) (End sp);
      let '(tok, g', tm') := register g tm matched in
      pre ← sliceTo text (Start sp);
      post ← sliceFrom text (End sp);
      redactLoop rest (pre ++ tok ++ post) g' tm'
  end.

(** The spans the loop is run on: validated, sorted, deduplicated. *)
Definition appliedSpans (original : bytes) (allSpans : list Span)
  : option (list Span) :=
  valid ← validSpans original allSpans;
  Some (deduplicateSpans (sortSpansDesc valid)).

(** What both redaction functions do with the spans [runClassifiers]
    returned. *)
Definition redactSpans (original : bytes) (allSpans : list Span)
    (g : Z) (tm : TokenMap) : option (bytes * Z * TokenMap) :=
  if decide (length allSpans = 0%nat) then Some (original, g, tm)
  else
    applied ← appliedSpans original allSpans;
    redactLoop applied original g tm.

Section Pipeline.

(** [runClassifiers] receives the classifiers' results in the order the
    goroutines finish, and only those that arrive within
    [classifierBudget].  [arrival text n] is that order for the [n]
    classifiers run on [text]: the indices of the results received. *)
Variable arrival : bytes -> nat -> list nat.

Definition runClassifiers (text : bytes) (cls : list Classifier) : list Span :=
  match cls with
  | [] => []
  | _ =>
      flat_map (fun i =>
                  match cls !! i with
                  | Some c => default [] (Classify c text)
                  | None => []
                  end)
               (arrival text (length cls))
  end.

Definition redactText (s : Sanitizer) (original : bytes) (g : Z) (tm : TokenMap)
  : option (bytes * Z * TokenMap) :=
  let allSpans := runClassifiers original (classifiers s) in
  redactSpans original allSpans g tm.

(** [classifiers[:len(classifiers)-1]] when there is more than one
    classifier, [nil] otherwise. *)
Definition redactTextWithNER (s : Sanitizer) (original : bytes) (g : Z)
    (tm : TokenMap) : option (bytes * Z * TokenMap) :=
  let classifiers :=
    if decide (1 < length (classifiers s))%nat
    then take (length (classifiers s) - 1) (classifiers s)
    else [] in
  let allSpans := runClassifiers original classifiers in
  redactSpans original allSpans g tm.

End Pipeline.

(** [Sanitizer.RestoreBytes] for a non-nil map. *)
Definition RestoreBytes (respBody : bytes) (tm : TokenMap) : bytes :=
  if IsEmpty tm then respBody else Restore tm respBody.

(** *** What the specification says of a span *)

(** A UTF-8 continuation byte, 10xxxxxx. *)
Definition continuationByte (c : byte) : Prop := 128 <= byteZ c < 192.

(** Offset [i] is a code-point boundary of [text]: the start, the end, or
    a byte that is no continuation byte. *)
Definition codePointBoundary (text : bytes) (i : Z) : Prop :=
  i = 0 \/ i = Z.of_nat (length text)
  \/ exists c, text !! Z.to_nat i = Some c /\ ~ continuationByte c.

(** [s] contains «TOKEN_, one or more digits, ». *)
Definition containsPlaceholder (s : bytes) : Prop :=
  exists pre ds post,
    s = pre ++ tokenPrefix ++ ds ++ tokenSuffix ++ post
    /\ ds <> [] /\ forallb isDigit ds = true.

(** space, tab, newline, carriage return, < > ( ) , ; [ ] { } double quote,
    single quote, backtick. *)
Definition wordBoundarySet : list byte :=
  [x20; x09; x0a; x0d; x3c; x3e; x28; x29; x2c; x3b; x5b; x5d; x7b; x7d;
   x22; x27; x60].

Definition SpanOK (text : bytes) (sp : Span) : Prop :=
  0 <= Start sp < End sp /\ End sp <= Z.of_nat (length text)
  /\ codePointBoundary text (Start sp)
  /\ codePointBoundary text (End sp)
  /\ (forall sub, slice text (Start sp) (End sp) = Some sub ->
        ~ containsPlaceholder sub)
  /\ (Start sp > 0 ->
        exists c, text !! Z.to_nat (Start sp - 1) = Some c /\ c ∈ wordBoundarySet)
  /\ (End sp < Z.of_nat (length text) ->
        exists c, text !! Z.to_nat (End sp) = Some c /\ c ∈ wordBoundarySet).

(** [keptSpans text spans out]: [out] is [spans] with exactly the spans
    that are not [SpanOK] removed, in the same order. *)
Inductive keptSpans (text : bytes) : list Span -> list Span -> Prop :=
| kept_nil : keptSpans text [] []
| kept_keep sp rest out :
    SpanOK text sp -> keptSpans text rest out ->
    keptSpans text (sp :: rest) (sp :: out)
| kept_drop sp rest out :
    ~ SpanOK text sp -> keptSpans text rest out ->
    keptSpans text (sp :: rest) out.

(** [b] lies wholly to the left of [a]. *)
Definition leftOf (a b : Span) : Prop := End b <= Start a.

(** Two spans as half-open intervals share no offset. *)
Definition disjointSpans (a b : Span) : Prop :=
  End a <= Start b \/ End b <= Start a.

(** [assigned p req o t]: request [req]'s map sends the original [o] to [t]. *)
Definition assigned (p : Process) (req : nat) (o t : bytes) : Prop :=
  exists m, tokenMaps p !! req = Some m /\ toToken m !! o = Some t.

(** Every assigned placeholder was minted from an id the counter has
    passed, and no placeholder is assigned twice. *)
Definition minted (p : Process) : Prop :=
  0 <= globalCounter p < 2 ^ 64
  /\ (forall req o t, assigned p req o t ->
        exists id, 1 <= id <= globalCounter p /\ t = placeholder id)
  /\ (forall r1 o1 r2 o2 t, assigned p r1 o1 t -> assigned p r2 o2 t ->
        r1 = r2 /\ o1 = o2).

(** The number a string of decimal digits denotes. *)
Definition digitsValue (ds : bytes) : Z :=
  foldl (fun acc b => acc * 10 + (byteZ b - 48)) 0 ds.

End Sanitize.

(** ** Package sanitize: the streaming restorer (stream.go) *)

Module Stream.

Import Sanitize.

(** The error an [io.Reader] returns with its bytes: [io.EOF] or another
    error. *)
Inductive readErr := io_EOF | io_failure.

#[global] Instance readErr_eq_dec : EqDecision readErr.
Proof. solve_decision. Defined.

(** The [io.Reader] interface: [readFrom s n] is [s.Read(tmp)] for a buffer
    of [n] bytes; it gives the bytes read, the error, and the reader
    afterwards. *)
Class Reader (S : Type) := readFrom : S -> nat -> (bytes * option readErr) * S.

(** An upstream body that arrives in frames: a read returns what is left of
    the current frame, as much as the buffer takes, and [io.EOF] once all
    frames are consumed. *)
#[global] Instance frameReader : Reader (list bytes) := fun frames n =>
  match frames with
  | [] => (([], Some io_EOF), [])
  | f :: rest =>
      if decide (length f <= n)%nat then ((f, None), rest)
      else ((take n f, None), drop n f :: rest)
  end.

Record RestoringReader (S : Type) := mkRestoringReader {
  src : S;
  tm : TokenMap;
  buf : bytes;
  srcEOF : bool
}.
Arguments mkRestoringReader {S}.
Arguments src {S}.
Arguments tm {S}.
Arguments buf {S}.
Arguments srcEOF {S}.

(** [NewRestoringReader]: with an empty map the source itself is returned
    ([inl]); [tm] is non-nil here. *)
Definition NewRestoringReader {S} (s : S) (m : TokenMap) : S + RestoringReader S :=
  if IsEmpty m then inl s
  else inr {| src := s; tm := m; buf := []; srcEOF := false |}.

(** [restoreBytes]: the same loop as [TokenMap.Restore]. *)
Definition restoreBytes (b : bytes) (m : TokenMap) : bytes :=
  foldl (fun s '(tok, orig) => ReplaceAll s tok orig) b (map_to_list (fromToken m)).

Definition holdBack : nat := 20.

(** The end of [Read]: copy [restored] into [p] and put what does not fit
    back in front of the buffer. *)
Definition copyOut {S} (r : RestoringReader S) (restored : bytes) (lenp : nat)
  : (bytes * option readErr) * RestoringReader S :=
  let copied := min lenp (length restored) in
  let buf' :=
    if decide (copied < length restored)%nat
    then drop copied restored ++ buf r
    else buf r in
  ((take copied restored, None),
   {| src := src r; tm := tm r; buf := buf'; srcEOF := srcEOF r |}).

(** [RestoringReader.Read(p)] with [lenp = len(p)]: the bytes written to
    [p], the error, and the reader afterwards.  The function calls itself
    after a short chunk; [fuel] bounds these calls, [None] is out of fuel. *)
Fixpoint Read {S} `{Reader S} (fuel : nat) (r : RestoringReader S) (lenp : nat)
  : option ((bytes * option readErr) * RestoringReader S) :=
  match fuel with
  | O => None
  | S fuel' =>
      if decide (lenp = 0)%nat then Some (([], None), r)
      else if decide (0 < length (buf r))%nat then
        (* drain the buffered bytes first *)
        let n := min lenp (length (buf r)) in
        Some ((take n (buf r), None),
              {| src := src r; tm := tm r; buf := drop n (buf r); srcEOF := srcEOF r |})
      else if srcEOF r then Some (([], Some io_EOF), r)
      else
        let '((chunk, err), src') := readFrom (src r) (lenp * 2) in
        match err with
        | Some io_failure =>
            Some (([], Some io_failure),
                  {| src := src'; tm := tm r; buf := buf r; srcEOF := srcEOF r |})
        | Some io_EOF =>
            let r1 := {| src := src'; tm := tm r; buf := buf r; srcEOF := true |} in
            let restored := restoreBytes chunk (tm r1) in
            let r2 :=
              if decide (0 < length (buf r1))%nat
              then {| src := src'; tm := tm r; buf := restoreBytes (buf r1) (tm r1);
                      srcEOF := true |}
              else r1 in
            Some (copyOut r2 restored lenp)
        | None =>
            let r1 := {| src := src'; tm := tm r; buf := buf r; srcEOF := srcEOF r |} in
            if decide (length chunk <= holdBack)%nat then
              Read fuel' {| src := src'; tm := tm r; buf := buf r ++ chunk;
                            srcEOF := srcEOF r |} lenp
            else
              let safe := take (length chunk - holdBack) chunk in
              let r2 := {| src := src'; tm := tm r;
                           buf := buf r ++ drop (length chunk - holdBack) chunk;
                           srcEOF := srcEOF r |} in
              Some (copyOut r2 (restoreBytes safe (tm r)) lenp)
        end
  end.

(** The copy loop of the handler's [streamResponse]: [Read] into a buffer
    of [lenp] bytes and write what was read, until [Read] returns an error.
    The result is the list of writes to the client. *)
Fixpoint streamWrites {S} `{Reader S} (fuel : nat) (r : RestoringReader S) (lenp : nat)
  : option (list bytes) :=
  match fuel with
  | O => None
  | S fuel' =>
      match Read fuel r lenp with
      | None => None
      | Some ((out, err), r') =>
          let ws := if decide (0 < length out)%nat then [out] else [] in
          match err with
          | Some _ => Some ws
          | None => rest ← streamWrites fuel' r' lenp; Some (ws ++ rest)
          end
      end
  end.

(** [out] ends with a proper, non-empty prefix of the placeholder [tok]. *)
Definition endsWithPartial (out tok : bytes) : Prop :=
  exists pre part rest,
    out = pre ++ part /\ tok = part ++ rest /\ part <> [] /\ rest <> [].

(** The map of a request that redacted the one value sk-abc123. *)
Definition keyMap : TokenMap := (register 0 newTokenMap (B "sk-abc123")).2.

End Stream.

(** ** Package wallet and package upstream (client.go) *)

Module Upstream.

Local Open Scope Z_scope.

Record Endpoint := mkEndpoint { URL : bytes; Address : bytes }.

(** [wallet.Pool]: the wallets (their requester addresses) and the atomic
    round-robin counter. *)
Record Pool := mkPool { wallets : list bytes; counter : Z }.

(** [Pool.Next]: [idx := counter.Add(1) - 1], both on uint64, and the
    wallet at [idx % len(wallets)]; the pool is built with at least one
    wallet. *)
Definition Next (p : Pool) : nat * Pool :=
  let c := (counter p + 1) mod 2 ^ 64 in
  let idx := (c - 1) mod 2 ^ 64 in
  (Z.to_nat (idx mod Z.of_nat (length (wallets p))),
   {| wallets := wallets p; counter := c |}).

Arguments Next : simpl never.

(** What [doWith] gives for one signed request: an error (the connection
    failed, the request could not be built, the context was cancelled) or a
    response with its status, and the body [io.ReadAll] reads from it
    together with the error of that read. *)
Inductive Outcome :=
| TransportError (err : bytes)
| HTTPResponse (status : Z) (body : bytes) (readErr : option bytes).

Record Client := mkClient { endpoints : list Endpoint; pool : Pool }.

(** [pickEndpointExcluding(exclude)]; [d] is the number [rand.Intn] is
    derived from, [rand.Intn(n) = d mod n].  [None] is the error
    no endpoints available. *)
Definition pickEndpointExcluding (c : Client) (exclude : gset bytes) (d : nat)
  : option Endpoint :=
  let eps := endpoints c in
  if decide (length eps = 0%nat) then None
  else
    let candidates := List.filter (fun ep => bool_decide (Address ep ∉ exclude)) eps in
    if decide (length candidates = 0%nat)
    then eps !! (d mod length eps)%nat
    else candidates !! (d mod length candidates)%nat.

(** One call of [doWith], as [Do] made it: the endpoint picked, the set
    [tried] the pick excluded, the wallet, and what came back. *)
Record Attempt := mkAttempt {
  picked : Endpoint;
  excluded : gset bytes;
  wallet : nat;
  outcome : Outcome
}.

(** What [Do] returns: the body ([None] is nil), the status, the error. *)
Record Reply := mkReply {
  replyBody : option bytes;
  replyStatus : Z;
  replyErr : option bytes
}.

Section Dispatch.

(** The random draws, one per attempt, and the network: what [doWith]
    gives at attempt [k] for an endpoint and a wallet. *)
Variable draws : nat -> nat.
Variable transport : nat -> Endpoint -> nat -> Outcome.

(** The loop of [Client.Do], [for attempt := 0; attempt < 3; attempt++],
    with [n] iterations left; it returns the reply, the calls of [doWith]
    it made, and the pool. *)
Fixpoint doLoop (c : Client) (n : nat) (attempt : nat) (tried : gset bytes)
    (lastErr : option bytes) (p : Pool) : Reply * list Attempt * Pool :=
  match n with
  | O => ({| replyBody := None; replyStatus := 0; replyErr := lastErr |}, [], p)
  | S n' =>
      match pickEndpointExcluding c tried (draws attempt) with
      | None =>
          (* break *)
          ({| replyBody := None; replyStatus := 0; replyErr := lastErr |}, [], p)
      | Some ep =>
          let tried' := {[Address ep]} ∪ tried in
          let '(w, p') := Next p in
          let out := transport attempt ep w in
          let a := {| picked := ep; excluded := tried; wallet := w; outcome := out |} in
          match out with
          | TransportError err =>
              let '(reply, log, p'') :=
                doLoop c n' (S attempt) tried' (Some err) p' in
              (reply, a :: log, p'')
          | HTTPResponse status body readErr =>
              ({| replyBody := Some body; replyStatus := status; replyErr := readErr |},
               [a], p')
          end
      end
  end.

Definition Do (c : Client) : Reply * list Attempt * Pool :=
  doLoop c 3 0 ∅ None (pool c).

End Dispatch.

(** Every attempt went to an endpoint whose address had not been tried. *)
Definition allFresh (log : list Attempt) : Prop :=
  forall a, a ∈ log -> Address (picked a) ∉ excluded a.

(** An attempt went to an untried endpoint whenever the client has one. *)
Definition freshIfPossible (c : Client) (a : Attempt) : Prop :=
  picked a ∈ endpoints c
  /\ (Address (picked a) ∉ excluded a
      \/ forall ep, ep ∈ endpoints c -> Address ep ∈ excluded a).

(** The addresses of the endpoints the attempts before the one of index
    [k] went to: the set [tried] of [Do] when that attempt picks. *)
Definition triedBefore (log : list Attempt) (k : nat) : gset bytes :=
  list_to_set (map (fun a => Address (picked a)) (take k log)).
(** A client that discovered a single endpoint. *)
Definition loneClient : Client :=
  {| endpoints := [{| URL := B "http://e1/v1"; Address := B "gonka1e1" |}];
     pool := {| wallets := [B "gonka1w"]; counter := 0 |} |}.

End Upstream.

(** ** The library functions the signer calls

    Models of [crypto/sha256], [crypto/hmac], [encoding/hex],
    [encoding/base64], [math/big] and of the secp256k1 curve of go-ethereum's
    [crypto] package, executable so that the signer can be run. *)

Module Crypto.

Local Open Scope Z_scope.

(** *** [math/big] *)

(** The [n] low-order bytes of [x], big-endian. *)
Fixpoint beBytes (n : nat) (x : Z) : bytes :=
  match n with
  | O => []
  | S n' => beBytes n' (x / 256) ++ [byteOfZ (x mod 256)]
  end.

(** [len(x.Bytes())] for [x >= 0]. *)
Definition byteLen (x : Z) : nat :=
  if x <=? 0 then O else Z.to_nat (Z.log2 x / 8 + 1).

(** [x.Bytes()]: the big-endian bytes of [|x|] without leading zeros. *)
Definition bigBytes (x : Z) : bytes := beBytes (byteLen (Z.abs x)) (Z.abs x).

(** [new(big.Int).SetBytes(b)]. *)
Definition beValue (b : bytes) : Z := foldl (fun acc c => acc * 256 + byteZ c) 0 b.

(** [x.BitLen()]. *)
Definition bitLen (x : Z) : Z := if Z.abs x =? 0 then 0 else Z.log2 (Z.abs x) + 1.

(** *** SHA-256 (FIPS 180-4) on 32-bit words *)

Definition mask32 : Z := 0xffffffff.
Definition add32 (a b : Z) : Z := (a + b) mod 2 ^ 32.
Definition rotr (n x : Z) : Z :=
  Z.lor (Z.shiftr x n) (Z.land (Z.shiftl x (32 - n)) mask32).
Definition Ch (x y z : Z) : Z := Z.lxor (Z.land x y) (Z.land (Z.lxor x mask32) z).
Definition Maj (x y z : Z) : Z :=
  Z.lxor (Z.lxor (Z.land x y) (Z.land x z)) (Z.land y z).
Definition bigSigma0 (x : Z) : Z := Z.lxor (Z.lxor (rotr 2 x) (rotr 13 x)) (rotr 22 x).
Definition bigSigma1 (x : Z) : Z := Z.lxor (Z.lxor (rotr 6 x) (rotr 11 x)) (rotr 25 x).
Definition smallSigma0 (x : Z) : Z :=
  Z.lxor (Z.lxor (rotr 7 x) (rotr 18 x)) (Z.shiftr x 3).
Definition smallSigma1 (x : Z) : Z :=
  Z.lxor (Z.lxor (rotr 17 x) (rotr 19 x)) (Z.shiftr x 10).

(** The first 64 primes. *)
Definition primes64 : list Z :=
  [2; 3; 5; 7; 11; 13; 17; 19; 23; 29; 31; 37; 41; 43; 47; 53;
   59; 61; 67; 71; 73; 79; 83; 89; 97; 101; 103; 107; 109; 113; 127; 131;
   137; 139; 149; 151; 157; 163; 167; 173; 179; 181; 191; 193; 197; 199; 211; 223;
   227; 229; 233; 239; 241; 251; 257; 263; 269; 271; 277; 281; 283; 293; 307; 311].

(** The integer cube root of [n], one bit at a time from bit [bits - 1]. *)
Fixpoint cubeRootBits (bits : nat) (n : Z) (acc : Z) : Z :=
  match bits with
  | O => acc
  | S b =>
      let cand := acc + 2 ^ Z.of_nat b in
      if cand * cand * cand <=? n then cubeRootBits b n cand
      else cubeRootBits b n acc
  end.

(** The first 32 bits of the fractional part of the cube root and of the
    square root of [p]. *)
Definition fracCubeRoot32 (p : Z) : Z := cubeRootBits 36 (p * 2 ^ 96) 0 mod 2 ^ 32.
Definition fracSqrt32 (p : Z) : Z := Z.sqrt (p * 2 ^ 64) mod 2 ^ 32.

(** The round constants: from the cube roots of the first 64 primes. *)
Definition roundConstants : list Z :=
  Eval vm_compute in map fracCubeRoot32 primes64.

(** The hash state: eight words. *)
Definition hashState : Type := Z * Z * Z * Z * Z * Z * Z * Z.

(** The initial state: from the square roots of the first 8 primes. *)
Definition initialState : hashState :=
  Eval vm_compute in
  (fracSqrt32 2, fracSqrt32 3, fracSqrt32 5, fracSqrt32 7,
   fracSqrt32 11, fracSqrt32 13, fracSqrt32 17, fracSqrt32 19).

(** The sixteen big-endian words of a 64-byte block. *)
Fixpoint blockWords (n : nat) (block : bytes) : list Z :=
  match n with
  | O => []
  | S n' => beValue (take 4 block) :: blockWords n' (drop 4 block)
  end.

(** The message schedule, most recent word first. *)
Fixpoint extendSchedule (n : nat) (rw : list Z) : list Z :=
  match n with
  | O => rw
  | S n' =>
      let w := add32 (add32 (smallSigma1 (nth 1 rw 0)) (nth 6 rw 0))
                     (add32 (smallSigma0 (nth 14 rw 0)) (nth 15 rw 0)) in
      extendSchedule n' (w :: rw)
  end.

Definition sha256Round (st : hashState) (kw : Z * Z) : hashState :=
  let '(a, b, c, d, e, f, g, h) := st in
  let '(k, w) := kw in
  let t1 := add32 (add32 (add32 h (bigSigma1 e)) (add32 (Ch e f g) k)) w in
  let t2 := add32 (bigSigma0 a) (Maj a b c) in
  (add32 t1 t2, a, b, c, add32 d t1, e, f, g).

Definition compress (st : hashState) (block : bytes) : hashState :=
  let w := rev (extendSchedule 48 (rev (blockWords 16 block))) in
  let '(a, b, c, d, e, f, g, h) := foldl sha256Round st (combine roundConstants w) in
  let '(a0, b0, c0, d0, e0, f0, g0, h0) := st in
  (add32 a0 a, add32 b0 b, add32 c0 c, add32 d0 d,
   add32 e0 e, add32 f0 f, add32 g0 g, add32 h0 h).

Fixpoint compressBlocks (n : nat) (st : hashState) (msg : bytes) : hashState :=
  match n with
  | O => st
  | S n' => compressBlocks n' (compress st (take 64 msg)) (drop 64 msg)
  end.

(** The message with its padding: a 1 bit, zeros up to 56 modulo 64, and the
    bit length on eight bytes. *)
Definition padMessage (msg : bytes) : bytes :=
  let len := Z.of_nat (length msg) in
  let zeros := Z.to_nat ((55 - len) mod 64) in
  msg ++ [x80] ++ replicate zeros x00 ++ beBytes 8 (8 * len).

(** [sha256.Sum256]. *)
Definition sha256 (msg : bytes) : bytes :=
  let padded := padMessage msg in
  let '(a, b, c, d, e, f, g, h) :=
    compressBlocks (length padded / 64) initialState padded in
  beBytes 4 a ++ beBytes 4 b ++ beBytes 4 c ++ beBytes 4 d
  ++ beBytes 4 e ++ beBytes 4 f ++ beBytes 4 g ++ beBytes 4 h.

(** *** HMAC-SHA256 (RFC 2104) *)

Definition xorBytes (c : Z) (b : bytes) : bytes :=
  map (fun x => byteOfZ (Z.lxor (byteZ x) c)) b.

(** [hmac.New(sha256.New, key)], [Write(msg)], [Sum(nil)]. *)
Definition hmacSHA256 (key msg : bytes) : bytes :=
  let key0 := if decide (64 < length key)%nat then sha256 key else key in
  let block := key0 ++ replicate (64 - length key0) x00 in
  sha256 (xorBytes 0x5c block ++ sha256 (xorBytes 0x36 block ++ msg)).

(** *** [encoding/hex] and [encoding/base64] *)

Definition hexDigit (d : Z) : byte :=
  if d <? 10 then byteOfZ (48 + d) else byteOfZ (87 + d).

(** [hex.EncodeToString]: two lower-case digits per byte. *)
Definition hexEncode (b : bytes) : bytes :=
  flat_map (fun c => [hexDigit (byteZ c / 16); hexDigit (byteZ c mod 16)]) b.

Definition base64Alphabet : bytes :=
  B "ABCDEFGHIJKLMNOPQRSTUVWXYZabcdefghijklmnopqrstuvwxyz0123456789+/".

Definition base64Char (v : Z) : byte := nth (Z.to_nat v) base64Alphabet x00.

(** [base64.StdEncoding.EncodeToString]: three bytes give four characters,
    the last group is padded with =. *)
Fixpoint base64Encode (b : bytes) : bytes :=
  match b with
  | [] => []
  | [x] =>
      let v := byteZ x in
      [base64Char (v / 4); base64Char (v mod 4 * 16); "="%byte; "="%byte]
  | [x; y] =>
      let v := byteZ x * 256 + byteZ y in
      [base64Char (v / 1024); base64Char (v / 16 mod 64);
       base64Char (v mod 16 * 4); "="%byte]
  | x :: y :: z :: rest =>
      let v := (byteZ x * 256 + byteZ y) * 256 + byteZ z in
      base64Char (v / 262144) :: base64Char (v / 4096 mod 64)
      :: base64Char (v / 64 mod 64) :: base64Char (v mod 64)
      :: base64Encode rest
  end.

(** *** secp256k1 *)

(** The field prime, the group order and the base point. *)
Definition fieldP : Z := 2 ^ 256 - 2 ^ 32 - 977.
Definition curveN : Z :=
  0xFFFFFFFFFFFFFFFFFFFFFFFFFFFFFFFEBAAEDCE6AF48A03BBFD25E8CD0364141.
Definition baseX : Z :=
  0x79BE667EF9DCBBAC55A06295CE870B07029BFCDB2DCE28D959F2815B16F81798.
Definition baseY : Z :=
  0x483ADA7726A3C4655DA4FBFC0E1108A8FD17B448A68554199C47D08FFB10D4B8.

(** [a^e mod m] by squaring. *)
Fixpoint powMod (a : Z) (e : positive) (m : Z) : Z :=
  match e with
  | xH => a mod m
  | xO e' => let h := powMod a e' m in (h * h) mod m
  | xI e' => let h := powMod a e' m in (h * h mod m * a) mod m
  end.

(** The inverse modulo a prime [m], zero for a multiple of [m]. *)
Definition invMod (a m : Z) : Z :=
  match m - 2 with
  | Zpos e => powMod (a mod m) e m
  | _ => 0
  end.

(** A point in Jacobian coordinates: [(X, Y, Z)] stands for the affine
    point [(X / Z^2, Y / Z^3)], and [Z = 0] for the point at infinity. *)
Definition point : Type := Z * Z * Z.

Definition infinity : point := (1, 1, 0).

Definition modP (x : Z) : Z := x mod fieldP.

(** Doubling on y^2 = x^3 + 7. *)
Definition pointDouble (p : point) : point :=
  let '(X, Y, Zc) := p in
  let A := modP (X * X) in
  let Bv := modP (Y * Y) in
  let C := modP (Bv * Bv) in
  let D := modP (2 * ((X + Bv) * (X + Bv) - A - C)) in
  let E := modP (3 * A) in
  let X3 := modP (E * E - 2 * D) in
  let Y3 := modP (E * (D - X3) - 8 * C) in
  let Z3 := modP (2 * Y * Zc) in
  (X3, Y3, Z3).

(** Adding the base point. *)
Definition pointAddBase (p : point) : point :=
  let '(X1, Y1, Z1) := p in
  if Z1 =? 0 then (baseX, baseY, 1)
  else
    let Z1Z1 := modP (Z1 * Z1) in
    let U2 := modP (baseX * Z1Z1) in
    let S2 := modP (baseY * Z1 * Z1Z1) in
    let H := modP (U2 - X1) in
    let R := modP (S2 - Y1) in
    if H =? 0 then (if R =? 0 then pointDouble p else infinity)
    else
      let HH := modP (H * H) in
      let HHH := modP (H * HH) in
      let V := modP (X1 * HH) in
      let X3 := modP (R * R - HHH - 2 * V) in
      let Y3 := modP (R * (V - X3) - Y1 * HHH) in
      let Z3 := modP (Z1 * H) in
      (X3, Y3, Z3).

(** [k] times the base point, by doubling and adding. *)
Fixpoint baseMul (k : positive) : point :=
  match k with
  | xH => (baseX, baseY, 1)
  | xO k' => pointDouble (baseMul k')
  | xI k' => pointAddBase (pointDouble (baseMul k'))
  end.

(** The affine coordinates; the point at infinity is given as [(0, 0)]. *)
Definition toAffine (p : point) : Z * Z :=
  let '(X, Y, Zc) := p in
  if Zc =? 0 then (0, 0)
  else
    let zi := invMod Zc fieldP in
    let zi2 := modP (zi * zi) in
    (modP (X * zi2), modP (Y * modP (zi2 * zi))).

(** [curve.ScalarBaseMult(k)] for the big-endian scalar [k]. *)
Definition ScalarBaseMult (k : bytes) : Z * Z :=
  match beValue k with
  | Zpos e => toAffine (baseMul e)
  | _ => (0, 0)
  end.

(** [new(big.Int).ModInverse(k, n)] for the prime [n]. *)
Definition ModInverse (k n : Z) : Z := invMod k n.

End Crypto.

(** ** Package signer (signer.go) *)

Module Signer.

Import Crypto.
Local Open Scope Z_scope.

(** [Signer]: the private scalar [key.D]; the curve is secp256k1. *)
Record Signer := mkSigner { D : Z }.

Definition int2octets (v : Z) (qlen : Z) : bytes :=
  let rlen := Z.to_nat ((qlen + 7) / 8) in
  let out := bigBytes v in
  let out :=
    if decide (length out < rlen)%nat
    then replicate (rlen - length out) x00 ++ out
    else out in
  if decide (rlen < length out)%nat then drop (length out - rlen) out else out.

Definition bits2int (b : bytes) (qlen : Z) : Z :=
  let v := beValue b in
  let blen := Z.of_nat (length b) * 8 in
  if qlen <? blen then Z.shiftr v (blen - qlen) else v.

Definition bits2octets (b : bytes) (q : Z) (qlen : Z) : bytes :=
  let z1 := bits2int b qlen in
  let z2 := z1 - q in
  let z2 := if z2 <? 0 then z1 else z2 in
  int2octets z2 qlen.

(** The inner loop of step h, [for len(t)*8 < qlen]: the new [v] and [t]. *)
Fixpoint fillT (fuel : nat) (kk v t : bytes) (qlen : Z) : option (bytes * bytes) :=
  match fuel with
  | O => None
  | S fuel' =>
      if Z.of_nat (length t) * 8 <? qlen
      then let v' := hmacSHA256 kk v in fillT fuel' kk v' (t ++ v') qlen
      else Some (v, t)
  end.

(** The outer loop of step h, [for { ... }]: it returns the first candidate
    in [1, N-1]. *)
Fixpoint nonceLoop (fuel : nat) (N : Z) (qlen : Z) (kk v : bytes) : option Z :=
  match fuel with
  | O => None
  | S fuel' =>
      '(v1, t) ← fillT (S fuel') kk v [] qlen;
      let secret := bits2int t qlen in
      if (0 <? secret) && (secret <? N) then Some secret
      else
        let kk' := hmacSHA256 kk (v1 ++ [x00]) in
        let v' := hmacSHA256 kk' v1 in
        nonceLoop fuel' N qlen kk' v'
  end.

(** [generateRFC6979K(N, D, hash)]; [None] when [fuel] iterations of the
    loops are not enough. *)
Definition generateRFC6979K (fuel : nat) (N D : Z) (hash : bytes) : option Z :=
  let qlen := bitLen N in
  let holen := 32%nat in
  let bx := int2octets D qlen in
  let bh := bits2octets hash N qlen in
  let v := replicate holen x01 in
  let kk := replicate holen x00 in
  let kk := hmacSHA256 kk (v ++ [x00] ++ bx ++ bh) in
  let v := hmacSHA256 kk v in
  let kk := hmacSHA256 kk (v ++ [x01] ++ bx ++ bh) in
  let v := hmacSHA256 kk v in
  nonceLoop fuel N qlen kk v.

(** *** The rounds of step h

    The loop of step h unrolled, to say which candidate it returns. *)

(** The pair (K, V) after steps b to g of [generateRFC6979K]: what the
    loop of step h starts with. *)
Definition nonceStart (N D : Z) (hash : bytes) : bytes * bytes :=
  let qlen := bitLen N in
  let holen := 32%nat in
  let bx := int2octets D qlen in
  let bh := bits2octets hash N qlen in
  let v := replicate holen x01 in
  let kk := replicate holen x00 in
  let kk := hmacSHA256 kk (v ++ [x00] ++ bx ++ bh) in
  let v := hmacSHA256 kk v in
  let kk := hmacSHA256 kk (v ++ [x01] ++ bx ++ bh) in
  let v := hmacSHA256 kk v in
  (kk, v).

(** One round of the loop of step h for an order of 256 bits, where one
    HMAC output fills T: the candidate [bits2int(T)], and the pair (K, V)
    the next round starts with when the candidate is not suitable. *)
Definition nonceRound (st : bytes * bytes) : Z * (bytes * bytes) :=
  let '(kk, v) := st in
  let v1 := hmacSHA256 kk v in
  let kk' := hmacSHA256 kk (v1 ++ [x00]) in
  (bits2int v1 256, (kk', hmacSHA256 kk' v1)).

(** The pair (K, V) at the start of round [i], counted from 0. *)
Fixpoint roundState (st : bytes * bytes) (i : nat) : bytes * bytes :=
  match i with
  | O => st
  | S i' => roundState (nonceRound st).2 i'
  end.

(** The candidate of round [i] of step h. *)
Definition candidate (N D : Z) (hash : bytes) (i : nat) : Z :=
  (nonceRound (roundState (nonceStart N D hash) i)).1.

(** [rfc6979Sign(key, hash)]. *)
Definition rfc6979Sign (fuel : nat) (key : Signer) (hash : bytes) : option (Z * Z) :=
  let N := curveN in
  k ← generateRFC6979K fuel N (D key) hash;
  let rx := (ScalarBaseMult (bigBytes k)).1 in
  let r := rx mod N in
  let kInv := ModInverse k N in
  let e := beValue hash in
  let s := ((r * D key + e) * kInv) mod N in
  Some (r, s).

(** [fmt.Sprintf("%d", ts)] for an int64. *)
Definition fmtInt (x : Z) : bytes :=
  if x <? 0 then "-"%byte :: Sanitize.fmtUint 20 (- x) else Sanitize.fmtUint 20 x.

(** [copy(out[lo:hi], src)]: the slice expression panics ([None]) out of
    range; [copy] moves as many bytes as both sides hold. *)
Definition copyInto (out : bytes) (lo hi : Z) (src : bytes) : option bytes :=
  dst ← slice out lo hi;
  let n := min (length dst) (length src) in
  Some (take (Z.to_nat lo) out ++ take n src ++ drop (Z.to_nat lo + n) out).

(** The hash that is signed: SHA-256 of the hex payload hash, the decimal
    timestamp and the transfer address. *)
Definition signingHash (payload : bytes) (transferAddress : bytes) (ts : Z) : bytes :=
  let payloadHash := sha256 payload in
  let payloadHex := hexEncode payloadHash in
  let tsStr := fmtInt ts in
  let sigInput := payloadHex ++ tsStr ++ transferAddress in
  sha256 sigInput.

(** [Signer.Sign(payload, transferAddress)], where [ts] is what
    [time.Now().UnixNano()] returned. *)
Definition Sign (fuel : nat) (key : Signer) (payload : bytes)
    (transferAddress : bytes) (ts : Z) : option (bytes * Z) :=
  let msgHash := signingHash payload transferAddress ts in
  '(r, sBig) ← rfc6979Sign fuel key msgHash;
  let curveOrder := curveN in
  let halfOrder := Z.shiftr curveOrder 1 in
  let sBig := if sBig >? halfOrder then curveOrder - sBig else sBig in
  let out := replicate 64 x00 in
  let rBytes := bigBytes r in
  let sBytes := bigBytes sBig in
  out ← copyInto out (32 - Z.of_nat (length rBytes)) 32 rBytes;
  out ← copyInto out (64 - Z.of_nat (length sBytes)) 64 sBytes;
  Some (base64Encode out, ts).

End Signer.

(** ** The decoder of [encoding/json]

    What [json.Unmarshal] does for the target types the program uses: the
    input must be one valid JSON value (RFC 8259) between optional white
    space, with at most 10000 objects and arrays nested in one another; a
    member or element decoded into a [json.RawMessage] keeps the bytes of
    its value. *)

Module JSON.

Local Open Scope Z_scope.

Definition isSpace (c : byte) : bool :=
  bool_decide (c = x20 \/ c = x09 \/ c = x0a \/ c = x0d).

Fixpoint skipWS (s : bytes) : bytes :=
  match s with
  | c :: s' => if isSpace c then skipWS s' else s
  | [] => []
  end.

Definition isDigit (c : byte) : bool := (48 <=? byteZ c) && (byteZ c <=? 57).

Definition hexVal (c : byte) : option Z :=
  let z := byteZ c in
  if (48 <=? z) && (z <=? 57) then Some (z - 48)
  else if (97 <=? z) && (z <=? 102) then Some (z - 87)
  else if (65 <=? z) && (z <=? 70) then Some (z - 55)
  else None.

Definition hex4 (h1 h2 h3 h4 : byte) : option Z :=
  a ← hexVal h1; b ← hexVal h2; c ← hexVal h3; d ← hexVal h4;
  Some (((a * 16 + b) * 16 + c) * 16 + d).

(** The rest of the input after a string literal whose opening quote has
    been read. *)
Fixpoint scanString (s : bytes) : option bytes :=
  match s with
  | [] => None
  | c :: s' =>
      if decide (c = x22) then Some s'
      else if decide (c = "\"%byte) then
        match s' with
        | e :: s'' =>
            if bool_decide (e ∈ [x22; "\"%byte; "/"%byte; "b"%byte; "f"%byte;
                                 "n"%byte; "r"%byte; "t"%byte])
            then scanString s''
            else if decide (e = "u"%byte) then
              match s'' with
              | h1 :: h2 :: h3 :: h4 :: s5 =>
                  match hex4 h1 h2 h3 h4 with
                  | Some _ => scanString s5
                  | None => None
                  end
              | _ => None
              end
            else None
        | [] => None
        end
      else if byteZ c <? 32 then None
      else scanString s'
  end.

Fixpoint skipDigits (s : bytes) : bytes :=
  match s with
  | c :: s' => if isDigit c then skipDigits s' else s
  | [] => []
  end.

(** One or more digits. *)
Definition scanDigits (s : bytes) : option bytes :=
  match s with
  | c :: s' => if isDigit c then Some (skipDigits s') else None
  | [] => None
  end.

(** The rest of the input after a number. *)
Definition scanNumber (s : bytes) : option bytes :=
  let s := match s with c :: s' => if decide (c = "-"%byte) then s' else s | [] => s end in
  r ← match s with
      | c :: s' =>
          if decide (c = "0"%byte) then Some s'
          else if isDigit c then Some (skipDigits s') else None
      | [] => None
      end;
  r ← match r with
      | c :: r' => if decide (c = "."%byte) then scanDigits r' else Some r
      | [] => Some r
      end;
  match r with
  | c :: r' =>
      if bool_decide (c = "e"%byte \/ c = "E"%byte) then
        match r' with
        | d :: r'' =>
            if bool_decide (d = "+"%byte \/ d = "-"%byte) then scanDigits r''
            else scanDigits r'
        | [] => None
        end
      else Some r
  | [] => Some r
  end.

Definition dropPrefix (p s : bytes) : option bytes :=
  if hasPrefix s p then Some (drop (length p) s) else None.

(** The scanner's [maxNestingDepth]: an opening brace or bracket that
    would make more than this many objects and arrays open at once is the
    error exceeded max depth. *)
Definition maxNestingDepth : Z := 10000.

(** The rest of the input after one value, its elements or its members.
    [depth] is the number of objects and arrays that are open (the length
    of the scanner's parse stack); [fuel] bounds the recursion and is
    given by the length of the input. *)
Fixpoint scanValue (fuel : nat) (depth : Z) (s : bytes) : option bytes :=
  match fuel with
  | O => None
  | S f =>
      match skipWS s with
      | [] => None
      | c :: s' =>
          if decide (c = "{"%byte) then
            if maxNestingDepth <=? depth then None
            else
              match skipWS s' with
              | d :: r =>
                  if decide (d = "}"%byte) then Some r else scanMembers f (depth + 1) s'
              | [] => None
              end
          else if decide (c = "["%byte) then
            if maxNestingDepth <=? depth then None
            else
              match skipWS s' with
              | d :: r =>
                  if decide (d = "]"%byte) then Some r else scanElements f (depth + 1) s'
              | [] => None
              end
          else if decide (c = x22) then scanString s'
          else if decide (c = "t"%byte) then dropPrefix (B "true") (c :: s')
          else if decide (c = "f"%byte) then dropPrefix (B "false") (c :: s')
          else if decide (c = "n"%byte) then dropPrefix (B "null") (c :: s')
          else scanNumber (c :: s')
      end
  end
with scanElements (fuel : nat) (depth : Z) (s : bytes) : option bytes :=
  match fuel with
  | O => None
  | S f =>
      r ← scanValue f depth s;
      match skipWS r with
      | c :: r' =>
          if decide (c = ","%byte) then scanElements f depth r'
          else if decide (c = "]"%byte) then Some r'
          else None
      | [] => None
      end
  end
with scanMembers (fuel : nat) (depth : Z) (s : bytes) : option bytes :=
  match fuel with
  | O => None
  | S f =>
      match skipWS s with
      | q :: s1 =>
          if decide (q = x22) then
            r ← scanString s1;
            match skipWS r with
            | c :: r1 =>
                if decide (c = ":"%byte) then
                  r2 ← scanValue f depth r1;
                  match skipWS r2 with
                  | d :: r3 =>
                      if decide (d = ","%byte) then scanMembers f depth r3
                      else if decide (d = "}"%byte) then Some r3
                      else None
                  | [] => None
                  end
                else None
            | [] => None
            end
          else None
      | [] => None
      end
  end.

Definition fuelFor (s : bytes) : nat := 2 * length s + 2.

(** [json.Valid(data)], the check [Unmarshal] starts with ([checkValid]):
    one value between optional white space, nested at most
    [maxNestingDepth] deep. *)
Definition Valid (data : bytes) : bool :=
  match scanValue (fuelFor data) 0 data with
  | Some rest => bool_decide (skipWS rest = [])
  | None => false
  end.

(** What was read between [s] and its suffix [rest]. *)
Definition consumed (s rest : bytes) : bytes := take (length s - length rest) s.

(** *** Decoding strings *)

Definition utf8Encode (cp : Z) : bytes :=
  if cp <? 0x80 then [byteOfZ cp]
  else if cp <? 0x800 then
    [byteOfZ (0xC0 + cp / 64); byteOfZ (0x80 + cp mod 64)]
  else if cp <? 0x10000 then
    [byteOfZ (0xE0 + cp / 4096); byteOfZ (0x80 + cp / 64 mod 64);
     byteOfZ (0x80 + cp mod 64)]
  else
    [byteOfZ (0xF0 + cp / 262144); byteOfZ (0x80 + cp / 4096 mod 64);
     byteOfZ (0x80 + cp / 64 mod 64); byteOfZ (0x80 + cp mod 64)].

Definition replacementChar : bytes := [xef; xbf; xbd].

Definition inRange (lo hi : Z) (c : byte) : bool := (lo <=? byteZ c) && (byteZ c <=? hi).

(** The length of the well-formed UTF-8 sequence at the head of [s], zero
    when there is none ([utf8.DecodeRune] then gives the replacement
    character and width 1). *)
Definition runeLen (s : bytes) : nat :=
  match s with
  | c :: r =>
      if byteZ c <? 0x80 then 1%nat
      else match r with
      | c1 :: r1 =>
          if inRange 0xC2 0xDF c then (if inRange 0x80 0xBF c1 then 2%nat else 0%nat)
          else match r1 with
          | c2 :: r2 =>
              let second3 :=
                if decide (c = xe0) then inRange 0xA0 0xBF c1
                else if decide (c = xed) then inRange 0x80 0x9F c1
                else inRange 0x80 0xBF c1 in
              if inRange 0xE0 0xEF c then
                (if second3 && inRange 0x80 0xBF c2 then 3%nat else 0%nat)
              else match r2 with
              | c3 :: _ =>
                  let second4 :=
                    if decide (c = xf0) then inRange 0x90 0xBF c1
                    else if decide (c = xf4) then inRange 0x80 0x8F c1
                    else inRange 0x80 0xBF c1 in
                  if inRange 0xF0 0xF4 c && second4 && inRange 0x80 0xBF c2
                     && inRange 0x80 0xBF c3
                  then 4%nat else 0%nat
              | [] => 0%nat
              end
          | [] => 0%nat
          end
      | [] => 0%nat
      end
  | [] => 0%nat
  end.

Definition escapeChar (e : byte) : byte :=
  if decide (e = "b"%byte) then x08
  else if decide (e = "f"%byte) then x0c
  else if decide (e = "n"%byte) then x0a
  else if decide (e = "r"%byte) then x0d
  else if decide (e = "t"%byte) then x09
  else e.

(** The decoded text of a string literal, from after its opening quote up
    to its closing quote: escapes are resolved, a surrogate pair gives one
    code point, a lone surrogate and every byte that is not part of
    well-formed UTF-8 give the replacement character.  [copy] counts the
    bytes of a well-formed sequence still to be copied. *)
Fixpoint unquoteFrom (s : bytes) (copy : nat) : bytes :=
  match s with
  | [] => []
  | c :: s' =>
      match copy with
      | S n => c :: unquoteFrom s' n
      | O =>
          if decide (c = x22) then []
          else if decide (c = "\"%byte) then
            match s' with
            | e :: s'' =>
                if decide (e = "u"%byte) then
                  match s'' with
                  | h1 :: h2 :: h3 :: h4 :: s5 =>
                      let cp := default 0 (hex4 h1 h2 h3 h4) in
                      if (0xD800 <=? cp) && (cp <? 0xDC00) then
                        match s5 with
                        | b1 :: u1 :: l1 :: l2 :: l3 :: l4 :: s6 =>
                            let lo := default 0 (hex4 l1 l2 l3 l4) in
                            if bool_decide (b1 = "\"%byte /\ u1 = "u"%byte)
                               && (0xDC00 <=? lo) && (lo <? 0xE000)
                            then utf8Encode (0x10000 + (cp - 0xD800) * 1024 + (lo - 0xDC00))
                                 ++ unquoteFrom s6 0
                            else replacementChar ++ unquoteFrom s5 0
                        | _ => replacementChar ++ unquoteFrom s5 0
                        end
                      else if (0xDC00 <=? cp) && (cp <? 0xE000)
                      then replacementChar ++ unquoteFrom s5 0
                      else utf8Encode cp ++ unquoteFrom s5 0
                  | _ => []
                  end
                else escapeChar e :: unquoteFrom s'' 0
            | [] => []
            end
          else
            match runeLen (c :: s') with
            | O => replacementChar ++ unquoteFrom s' 0
            | S n => c :: unquoteFrom s' n
            end
      end
  end.

Definition unquote (s : bytes) : bytes := unquoteFrom s 0.

(** *** Decoding objects and arrays into raw members *)

(** The members of an object, in order: the decoded key and the bytes of
    the value.  [s] starts after the opening brace of the outermost object,
    so its values are scanned with one object open. *)
Fixpoint membersFrom (fuel : nat) (s : bytes) : option (list (bytes * bytes)) :=
  match fuel with
  | O => None
  | S f =>
      match skipWS s with
      | q :: s1 =>
          if decide (q = x22) then
            r ← scanString s1;
            match skipWS r with
            | c :: r1 =>
                if decide (c = ":"%byte) then
                  let v := skipWS r1 in
                  r2 ← scanValue (fuelFor v) 1 v;
                  let member := (unquote s1, consumed v r2) in
                  match skipWS r2 with
                  | d :: r3 =>
                      if decide (d = ","%byte)
                      then rest ← membersFrom f r3; Some (member :: rest)
                      else if decide (d = "}"%byte) then Some [member]
                      else None
                  | [] => None
                  end
                else None
            | [] => None
            end
          else if decide (q = "}"%byte) then Some []
          else None
      | [] => None
      end
  end.

(** The bytes of the elements of an array.  [s] starts after the opening
    bracket of the outermost array. *)
Fixpoint elementsFrom (fuel : nat) (s : bytes) : option (list bytes) :=
  match fuel with
  | O => None
  | S f =>
      match skipWS s with
      | c :: r =>
          if decide (c = "]"%byte) then Some []
          else
            let v := c :: r in
            r2 ← scanValue (fuelFor v) 1 v;
            let element := consumed v r2 in
            match skipWS r2 with
            | d :: r3 =>
                if decide (d = ","%byte)
                then rest ← elementsFrom f r3; Some (element :: rest)
                else if decide (d = "]"%byte) then Some [element]
                else None
            | [] => None
            end
      | [] => None
      end
  end.

(** The kinds of a valid JSON text, with what the decoder needs of each. *)
Inductive Decoded :=
| DNull
| DBool (b : bool)
| DNumber (lit : bytes)
| DString (s : bytes)
| DArray (elements : list bytes)
| DObject (members : list (bytes * bytes)).

(** A valid JSON text, decoded one level deep; [None] for a text that is
    not valid JSON. *)
Definition decode (data : bytes) : option Decoded :=
  if Valid data then
    match skipWS data with
    | c :: r =>
        if decide (c = "{"%byte) then DObject <$> membersFrom (fuelFor r) r
        else if decide (c = "["%byte) then DArray <$> elementsFrom (fuelFor r) r
        else if decide (c = x22) then Some (DString (unquote r))
        else if decide (c = "t"%byte) then Some (DBool true)
        else if decide (c = "f"%byte) then Some (DBool false)
        else if decide (c = "n"%byte) then Some DNull
        else Some (DNumber (consumed (c :: r) (default [] (scanNumber (c :: r)))))
    | [] => None
    end
  else None.

(** A Go [map[string]json.RawMessage]: [None] is the nil map. *)
Abbreviation RawMap := (option (gmap bytes bytes)).

(** Later members overwrite earlier ones with the same key. *)
Definition mapOfMembers (members : list (bytes * bytes)) : gmap bytes bytes :=
  foldl (fun m '(k, v) => <[k := v]> m) ∅ members.

(** [m[key]] on a map that may be nil. *)
Definition rawLookup (m : RawMap) (key : bytes) : option bytes :=
  match m with
  | Some fields => fields !! key
  | None => None
  end.

(** [json.Unmarshal(data, &m)] for a nil [m map[string]json.RawMessage]:
    [None] is an error; JSON null leaves the map nil. *)
Definition UnmarshalMap (data : bytes) : option RawMap :=
  match decode data with
  | Some (DObject members) => Some (Some (mapOfMembers members))
  | Some DNull => Some None
  | _ => None
  end.

(** [json.Unmarshal(data, &l)] for a nil [l []map[string]json.RawMessage]:
    an element that is neither an object nor null is an error. *)
Definition UnmarshalMaps (data : bytes) : option (list RawMap) :=
  match decode data with
  | Some (DArray elements) => mapM UnmarshalMap elements
  | Some DNull => Some []
  | _ => None
  end.

(** [json.Unmarshal(data, &s)] for an empty [s string]: JSON null leaves it
    empty. *)
Definition UnmarshalString (data : bytes) : option bytes :=
  match decode data with
  | Some (DString s) => Some s
  | Some DNull => Some []
  | _ => None
  end.

End JSON.

(** ** Package sanitize: [RedactMessages] (sanitize.go) and the classifier
    list built by [main] (cmd/proxy/main.go) *)

Module Messages.

Import Sanitize JSON.
Local Open Scope Z_scope.

(** The classifier list [main] passes to [NewWithClassifiers]: the NER
    client when [SanitizeNER] is set, then the LLM client when
    [SanitizeLLM] is set. *)
Definition mainClassifiers (sanitizeNER sanitizeLLM : bool)
    (nerClient llmClient : Classifier) : list Classifier :=
  (if sanitizeNER then [nerClient] else [])
  ++ (if sanitizeLLM then [llmClient] else []).

(** The classifiers [redactTextWithNER] runs, by the name of its local
    variable. *)
Definition historyClassifiers (cls : list Classifier) : list Classifier :=
  if decide (1 < length cls)%nat then take (length cls - 1) cls else [].

(** The configured classifiers that are not the LLM classifier. *)
Definition nonLLM (cls : list Classifier) : list Classifier :=
  List.filter (fun c => match kind c with LLM => false | NER => true end) cls.

(** The body has no member messages: it is not a JSON object that has
    one. *)
Definition noMessagesKey (body : bytes) : Prop :=
  forall members, decode body = Some (DObject members) ->
    B "messages" ∉ members.*1.

(** The role of a message is the string user. *)
Definition isUser (msg : RawMap) : bool :=
  match rawLookup msg (B "role") with
  | None => false
  | Some roleRaw =>
      match UnmarshalString roleRaw with
      | Some role => bool_decide (role = B "user")
      | None => false
      end
  end.

(** The loop [for i := len(messages) - 1; i >= 0; i--] that looks for the
    last user message; [rmsgs] are the messages from index [i] downwards. *)
Fixpoint findLastUser (rmsgs : list RawMap) (i : Z) : Z :=
  match rmsgs with
  | [] => -1
  | msg :: rest => if isUser msg then i else findLastUser rest (i - 1)
  end.

Definition lastUserIdx (messages : list RawMap) : Z :=
  findLastUser (rev messages) (Z.of_nat (length messages) - 1).

Section RedactMessages.

Variable arrival : bytes -> nat -> list nat.

(** The encoder of [encoding/json]: [json.Marshal] of a string, of a
    [[]map[string]json.RawMessage] (the error is dropped by the callers) and
    of a [map[string]json.RawMessage] ([None] is an error). *)
Variable MarshalString : bytes -> bytes.
Variable MarshalMaps : list RawMap -> bytes.
Variable MarshalMap : RawMap -> option bytes.

(** The state the redaction functions thread: the process-wide counter and
    the request's TokenMap. *)
Definition RedactFn : Type :=
  bytes -> Z -> TokenMap -> option (bytes * Z * TokenMap).

(** [m[key] = value]; the maps written to were found to hold a key, so
    they are not nil. *)
Definition rawInsert (m : RawMap) (key value : bytes) : RawMap :=
  Some (<[key := value]> (default ∅ m)).

(** The loop over the parts of an array content. *)
Fixpoint redactParts (redactFn : RedactFn) (parts : list RawMap)
    (g : Z) (tm : TokenMap) : option (list RawMap * bool * Z * TokenMap) :=
  match parts with
  | [] => Some ([], false, g, tm)
  | part :: rest =>
      '(part', changedHere, g1, tm1) ←
        match rawLookup part (B "text") with
        | None => Some (part, false, g, tm)
        | Some textRaw =>
            match UnmarshalString textRaw with
            | None => Some (part, false, g, tm)
            | Some text =>
                '(redacted, g1, tm1) ← redactFn text g tm;
                if decide (redacted = text) then Some (part, false, g1, tm1)
                else Some (rawInsert part (B "text") (MarshalString redacted),
                           true, g1, tm1)
            end
        end;
      '(rest', changedRest, g2, tm2) ← redactParts redactFn rest g1 tm1;
      Some (part' :: rest', changedHere || changedRest, g2, tm2)
  end.

(** The body of the loop over the messages, for one message. *)
Definition redactMessage (redactFn : RedactFn) (msg : RawMap)
    (g : Z) (tm : TokenMap) : option (RawMap * bool * Z * TokenMap) :=
  match rawLookup msg (B "content") with
  | None => Some (msg, false, g, tm)
  | Some contentRaw =>
      match UnmarshalString contentRaw with
      | Some strContent =>
          '(redacted, g1, tm1) ← redactFn strContent g tm;
          if decide (redacted = strContent) then Some (msg, false, g1, tm1)
          else Some (rawInsert msg (B "content") (MarshalString redacted),
                     true, g1, tm1)
      | None =>
          match UnmarshalMaps contentRaw with
          | None => Some (msg, false, g, tm)
          | Some parts =>
              '(parts', partsChanged, g1, tm1) ← redactParts redactFn parts g tm;
              if (partsChanged : bool)
              then Some (rawInsert msg (B "content") (MarshalMaps parts'),
                         true, g1, tm1)
              else Some (msg, false, g1, tm1)
          end
      end
  end.

(** The loop [for i, msg := range messages], from index [i] on: the last
    user message goes through [redactText], every other message through
    [redactTextWithNER]. *)
Fixpoint redactFrom (s : Sanitizer) (lastUser : Z) (i : Z) (msgs : list RawMap)
    (g : Z) (tm : TokenMap) : option (list RawMap * bool * Z * TokenMap) :=
  match msgs with
  | [] => Some ([], false, g, tm)
  | msg :: rest =>
      let redactFn : RedactFn :=
        if i =? lastUser then redactText arrival s else redactTextWithNER arrival s in
      '(msg', changedHere, g1, tm1) ← redactMessage redactFn msg g tm;
      '(rest', changedRest, g2, tm2) ← redactFrom s lastUser (i + 1) rest g1 tm1;
      Some (msg' :: rest', changedHere || changedRest, g2, tm2)
  end.

(** [Sanitizer.RedactMessages(body)], from the counter value [g]: the body
    to forward, the counter and the TokenMap of the request. *)
Definition RedactMessages (s : Sanitizer) (body : bytes) (g : Z)
  : option (bytes * Z * TokenMap) :=
  let tm := newTokenMap in
  match UnmarshalMap body with
  | None => redactText arrival s body g tm
  | Some req =>
      match rawLookup req (B "messages") with
      | None => Some (body, g, tm)
      | Some messagesRaw =>
          match UnmarshalMaps messagesRaw with
          | None => Some (body, g, tm)
          | Some messages =>
              '(messages', changed, g', tm') ←
                redactFrom s (lastUserIdx messages) 0 messages g tm;
              if (changed : bool) then
                let req' := rawInsert req (B "messages") (MarshalMaps messages') in
                match MarshalMap req' with
                | None => Some (body, g', tm')
                | Some out => Some (out, g', tm')
                end
              else Some (body, g', tm')
          end
      end
  end.

End RedactMessages.

(** *** Inputs for the examples *)

(** Every classifier's result arrives, in the order of the list. *)
Definition allArrive : bytes -> nat -> list nat := fun _ n => seq 0 n.

(** The first occurrence of [needle] in [text], from offset [i]. *)
Fixpoint findFrom (needle text : bytes) (i : Z) : option Z :=
  match text with
  | [] => None
  | _ :: rest => if hasPrefix text needle then Some i else findFrom needle rest (i + 1)
  end.

(** A classifier that reports the first occurrence of one value. *)
Definition flags (k : ClassifierKind) (label value : bytes) : Classifier :=
  {| kind := k;
     Classify := fun text =>
       match findFrom value text 0 with
       | Some i => Some [{| Start := i; End := i + Z.of_nat (length value);
                            Label := label |}]
       | None => Some []
       end |}.

(** An encoder for the examples: strings are quoted as they are, members
    are written in the order of [map_to_list]; the nil map and the nil slice
    are null. *)
Definition quoteString (s : bytes) : bytes := [x22] ++ s ++ [x22].

Definition joinWith (sep : byte) (items : list bytes) : bytes :=
  match items with
  | [] => []
  | first :: rest => first ++ flat_map (fun item => sep :: item) rest
  end.

Definition writeMap (m : RawMap) : bytes :=
  match m with
  | None => B "null"
  | Some fields =>
      B "{" ++ joinWith ","%byte
                 (map (fun '(k, v) => quoteString k ++ B ":" ++ v) (map_to_list fields))
      ++ B "}"
  end.

Definition writeMaps (l : list RawMap) : bytes :=
  B "[" ++ joinWith ","%byte (map writeMap l) ++ B "]".

End Messages.

(** ** Package toolsim: [ParseResponse] (toolsim.go) *)

Module Toolsim.

Import JSON.
Local Open Scope Z_scope.

Record FunctionDef := mkFunctionDef {
  fnName : bytes;
  fnDescription : bytes;
  fnParameters : bytes
}.

Record Tool := mkTool { toolType : bytes; toolFunction : FunctionDef }.

Record FunctionCall := mkFunctionCall { callName : bytes; callArguments : bytes }.

Record ToolCallMsg := mkToolCallMsg {
  tcID : bytes;
  tcType : bytes;
  tcFunction : FunctionCall
}.

Record parsedToolCall := mkParsed { Name : bytes; Arguments : bytes }.

(** *** The library functions of package strings *)

(** The white space of [unicode.IsSpace], in UTF-8. *)
Definition spaceRunes : list bytes :=
  [[x09]; [x0a]; [x0b]; [x0c]; [x0d]; [x20]; [xc2; x85]; [xc2; xa0];
   [xe1; x9a; x80];
   [xe2; x80; x80]; [xe2; x80; x81]; [xe2; x80; x82]; [xe2; x80; x83];
   [xe2; x80; x84]; [xe2; x80; x85]; [xe2; x80; x86]; [xe2; x80; x87];
   [xe2; x80; x88]; [xe2; x80; x89]; [xe2; x80; x8a];
   [xe2; x80; xa8]; [xe2; x80; xa9]; [xe2; x80; xaf]; [xe2; x81; x9f];
   [xe3; x80; x80]].

(** The length of the white-space rune at the head of [s], zero if none. *)
Definition leadingSpace (runes : list bytes) (s : bytes) : nat :=
  match List.find (fun r => hasPrefix s r) runes with
  | Some r => length r
  | None => O
  end.

Fixpoint trimLeft (fuel : nat) (runes : list bytes) (s : bytes) : bytes :=
  match fuel with
  | O => s
  | S f =>
      match leadingSpace runes s with
      | O => s
      | n => trimLeft f runes (drop n s)
      end
  end.

(** [strings.TrimSpace]. *)
Definition TrimSpace (s : bytes) : bytes :=
  let l := trimLeft (length s) spaceRunes s in
  rev (trimLeft (length l) (map (@rev byte) spaceRunes) (rev l)).

(** [strings.Index(s, sep)] for a non-empty [sep], from offset [i]. *)
Fixpoint indexFrom (sep s : bytes) (i : Z) : Z :=
  match s with
  | [] => -1
  | _ :: rest => if hasPrefix s sep then i else indexFrom sep rest (i + 1)
  end.

Definition Index (s sep : bytes) : Z := indexFrom sep s 0.

(** [strings.LastIndex(s, sep)] for a non-empty [sep]. *)
Fixpoint lastIndexFrom (sep s : bytes) (i : Z) (found : Z) : Z :=
  match s with
  | [] => found
  | _ :: rest =>
      lastIndexFrom sep rest (i + 1) (if hasPrefix s sep then i else found)
  end.

Definition LastIndex (s sep : bytes) : Z := lastIndexFrom sep s 0 (-1).

Definition fence : bytes := B "```".

(** [stripCodeFences]: [strings.SplitN(s, newline, 2)] has two parts when
    [s] holds a newline. *)
Definition stripCodeFences (s : bytes) : bytes :=
  if hasPrefix s fence then
    let nl := Index s [x0a] in
    let s := if 0 <=? nl then drop (Z.to_nat nl + 1) s else s in
    let idx := LastIndex s fence in
    if 0 <=? idx then take (Z.to_nat idx) s else s
  else s.

(** *** Decoding a call *)

(** The folded form of a member name, under which the decoder compares it
    with a field name: ASCII letters in upper case, the long s and the Kelvin
    sign as S and K. *)
Fixpoint foldName (s : bytes) : bytes :=
  match s with
  | [] => []
  | c :: r =>
      if (97 <=? byteZ c) && (byteZ c <=? 122) then byteOfZ (byteZ c - 32) :: foldName r
      else
        match c, r with
        | xc5, xbf :: r' => "S"%byte :: foldName r'
        | xe2, x84 :: xaa :: r' => "K"%byte :: foldName r'
        | _, _ => c :: foldName r
        end
  end.

Definition matchesField (field key : bytes) : bool :=
  bool_decide (foldName key = foldName field).

(** One member decoded into the struct with the fields [name] (a string)
    and [arguments] (a [json.RawMessage]); [None] is a type error. *)
Definition decodeMember (call : parsedToolCall) (member : bytes * bytes)
  : option parsedToolCall :=
  let '(key, raw) := member in
  if matchesField (B "name") key then
    match decode raw with
    | Some (DString s) => Some {| Name := s; Arguments := Arguments call |}
    | Some DNull => Some call
    | _ => None
    end
  else if matchesField (B "arguments") key then
    Some {| Name := Name call; Arguments := raw |}
  else Some call.

Definition zeroCall : parsedToolCall := {| Name := []; Arguments := [] |}.

(** [json.Unmarshal(data, &single)] for the zero struct. *)
Definition UnmarshalCall (data : bytes) : option parsedToolCall :=
  match decode data with
  | Some (DObject members) =>
      foldl (fun acc member => call ← acc; decodeMember call member)
            (Some zeroCall) members
  | Some DNull => Some zeroCall
  | _ => None
  end.

(** [json.Unmarshal(data, &calls)] for the slice of such structs. *)
Definition UnmarshalCalls (data : bytes) : option (list parsedToolCall) :=
  match decode data with
  | Some (DArray elements) => mapM UnmarshalCall elements
  | Some DNull => Some []
  | _ => None
  end.

(** The calls with a declared name, their missing or null arguments
    replaced by the empty object. *)
Definition keepValid (validNames : gset bytes) (calls : list parsedToolCall)
  : list parsedToolCall :=
  flat_map
    (fun c =>
       if decide (Name c ∈ validNames) then
         let args := Arguments c in
         let args :=
           if bool_decide (args = [] \/ args = B "null") then B "{}" else args in
         [{| Name := Name c; Arguments := args |}]
       else [])
    calls.

Definition extractToolCalls (content : bytes) (tools : list Tool)
  : list parsedToolCall :=
  let content := TrimSpace content in
  let content := stripCodeFences content in
  let content := TrimSpace content in
  let validNames : gset bytes := list_to_set (map (fun t => fnName (toolFunction t)) tools) in
  let whole :=
    match UnmarshalCalls content with
    | Some (c :: cs) => keepValid validNames (c :: cs)
    | _ => []
    end in
  match whole with
  | _ :: _ => whole
  | [] =>
      let start := Index content (B "[") in
      let end_ := LastIndex content (B "]") in
      let embedded :=
        if (0 <=? start) && (start <? end_) then
          match slice content start (end_ + 1) with
          | Some substring =>
              match UnmarshalCalls substring with
              | Some (c :: cs) => Some (keepValid validNames (c :: cs))
              | _ => None
              end
          | None => None
          end
        else None in
      match embedded with
      | Some result => result
      | None =>
          match UnmarshalCall content with
          | Some single =>
              if bool_decide (Name single <> []) && bool_decide (Name single ∈ validNames)
              then keepValid validNames [single]
              else []
          | None => []
          end
      end
  end.

(** What a call of [ParseResponse] ends in: a returned body, or a run-time
    panic (the request's goroutine is aborted). *)
Inductive Result :=
| Returned (body : bytes)
| Panicked (reason : bytes).

Section ParseResponse.

(** [generateToolCallID] for the call at an index: call_ and the hex of
    twelve random bytes. *)
Variable toolCallID : nat -> bytes.

(** The encoder of [encoding/json] for the values marshalled here. *)
Variable MarshalToolCalls : list ToolCallMsg -> bytes.
Variable MarshalMapOrNil : RawMap -> bytes.
Variable MarshalMaps : list RawMap -> bytes.
Variable MarshalMap : RawMap -> option bytes.

Definition ParseResponse (respBody : bytes) (tools : list Tool)
    (originalModel : bytes) : Result :=
  match UnmarshalMap respBody with
  | None => Returned respBody
  | Some resp =>
      (* var choices; filled only when resp has the key *)
      let choicesOrReturn : option (list RawMap) :=
        match rawLookup resp (B "choices") with
        | Some c =>
            match UnmarshalMaps c with
            | None => None
            | Some [] => None
            | Some choices => Some choices
            end
        | None => Some []
        end in
      match choicesOrReturn with
      | None => Returned respBody
      | Some [] => Panicked (B "index out of range [0] with length 0")
      | Some (choice0 :: others) =>
          let msgOrReturn : option RawMap :=
            match rawLookup choice0 (B "message") with
            | Some m => UnmarshalMap m
            | None => Some None
            end in
          match msgOrReturn with
          | None => Returned respBody
          | Some msg =>
              let contentOrReturn : option bytes :=
                match rawLookup msg (B "content") with
                | Some c => UnmarshalString c
                | None => Some []
                end in
              match contentOrReturn with
              | None => Returned respBody
              | Some content =>
                  match extractToolCalls content tools with
                  | [] => Returned respBody
                  | toolCalls =>
                      let toolCallMsgs :=
                        imap (fun i tc =>
                                {| tcID := toolCallID i; tcType := B "function";
                                   tcFunction := {| callName := Name tc;
                                                    callArguments := Arguments tc |} |})
                             toolCalls in
                      match msg, choice0, resp with
                      | Some msgFields, Some choiceFields, Some respFields =>
                          let msg' :=
                            <[B "tool_calls" := MarshalToolCalls toolCallMsgs]>
                              (<[B "content" := B "null"]>
                                 (<[B "role" := Q "'assistant'"]> msgFields)) in
                          let choice' :=
                            <[B "finish_reason" := Q "'tool_calls'"]>
                              (<[B "message" := MarshalMapOrNil (Some msg')]> choiceFields) in
                          let resp' :=
                            <[B "choices" := MarshalMaps (Some choice' :: others)]> respFields in
                          match MarshalMap (Some resp') with
                          | None => Returned respBody
                          | Some out => Returned out
                          end
                      | _, _, _ => Panicked (B "assignment to entry in nil map")
                      end
                  end
              end
          end
      end
  end.

End ParseResponse.

(** *** Inputs for the examples *)

(** An encoder for the examples: a string between quotes, with its quotes
    and backslashes escaped. *)
Definition writeString (s : bytes) : bytes :=
  [x22] ++ flat_map (fun c => if bool_decide (c = x22 \/ c = "\"%byte)
                              then ["\"%byte; c] else [c]) s ++ [x22].

Definition writeToolCall (t : ToolCallMsg) : bytes :=
  Q "{'id':" ++ writeString (tcID t) ++ Q ",'type':" ++ writeString (tcType t)
  ++ Q ",'function':{'name':" ++ writeString (callName (tcFunction t))
  ++ Q ",'arguments':" ++ writeString (callArguments (tcFunction t)) ++ B "}}".

Definition writeToolCalls (l : list ToolCallMsg) : bytes :=
  B "[" ++ Messages.joinWith ","%byte (map writeToolCall l) ++ B "]".

(** The names the tools declare. *)
Definition declaredNames (tools : list Tool) : gset bytes :=
  list_to_set (map (fun t => fnName (toolFunction t)) tools).

End Toolsim.

(** * Facts about the embedding *)

(** ** Byte strings *)

Lemma byteZ_range (b : byte) : (0 <= byteZ b < 256)%Z.
Proof.
  unfold byteZ. pose proof (Byte.to_N_bounded b) as H. lia.
Qed.

Lemma byteZ_byteOfZ (z : Z) : (0 <= z < 256)%Z -> byteZ (byteOfZ z) = z.
Proof.
  intros Hz. unfold byteZ, byteOfZ.
  destruct (Byte.of_N (Z.to_N z)) as [b|] eqn:E.
  - apply Byte.to_of_N in E. rewrite E. lia.
  - apply Byte.of_N_None_iff in E. lia.
Qed.

Lemma byteOfZ_byteZ (b : byte) : byteOfZ (byteZ b) = b.
Proof.
  unfold byteZ, byteOfZ. rewrite N2Z.id, Byte.of_to_N. reflexivity.
Qed.

Lemma byteZ_inj (a b : byte) : byteZ a = byteZ b -> a = b.
Proof.
  intros H. rewrite <- (byteOfZ_byteZ a), <- (byteOfZ_byteZ b), H. reflexivity.
Qed.

Lemma hasPrefix_spec (s p : bytes) : hasPrefix s p = true <-> exists r, s = p ++ r.
Proof.
  revert s. induction p as [|c p IH]; intros s; simpl.
  - split; [intros _; exists s; reflexivity | reflexivity].
  - destruct s as [|d s].
    + split; [discriminate | intros [r Hr]; discriminate].
    + destruct (decide (c = d)) as [->|Hne].
      * rewrite IH. split; intros [r Hr]; exists r.
        -- simpl. congruence.
        -- simpl in Hr. congruence.
      * split; [discriminate | intros [r Hr]; simpl in Hr; congruence].
Qed.

(** ** Placeholders and the token map *)

Section Placeholders.

Import Sanitize.
Local Open Scope Z_scope.

Lemma digitsValue_snoc ds b :
  digitsValue (ds ++ [b]) = digitsValue ds * 10 + (byteZ b - 48).
Proof. unfold digitsValue. rewrite foldl_app. reflexivity. Qed.

Lemma fmtUint_value fuel u :
  0 <= u < 10 ^ Z.of_nat fuel -> (0 < fuel)%nat ->
  digitsValue (fmtUint fuel u) = u.
Proof.
  revert u. induction fuel as [|f IH]; intros u Hu Hf; [lia|].
  simpl. destruct (10 <=? u) eqn:E.
  - apply Z.leb_le in E.
    assert (Hf' : (0 < f)%nat).
    { destruct f; [|lia]. simpl in Hu. lia. }
    rewrite digitsValue_snoc, IH, byteZ_byteOfZ; try lia.
    + pose proof (Z.div_mod u 10). pose proof (Z.mod_pos_bound u 10). lia.
    + split; [apply Z.div_pos; lia|].
      apply Z.div_lt_upper_bound; [lia|].
      rewrite Nat2Z.inj_succ, Z.pow_succ_r in Hu; lia.
  - apply Z.leb_gt in E. unfold digitsValue. simpl.
    rewrite byteZ_byteOfZ; lia.
Qed.

Lemma fmtUint_digits fuel u :
  0 <= u -> forallb isDigit (fmtUint fuel u) = true.
Proof.
  revert u. induction fuel as [|f IH]; intros u Hu; [reflexivity|].
  simpl. destruct (10 <=? u) eqn:E.
  - apply Z.leb_le in E. rewrite forallb_app, IH by (apply Z.div_pos; lia).
    simpl. unfold isDigit.
    pose proof (Z.div_mod u 10). pose proof (Z.mod_pos_bound u 10).
    rewrite byteZ_byteOfZ by lia.
    replace (48 <=? _) with true by (symmetry; apply Z.leb_le; lia).
    replace (_ <=? 57) with true by (symmetry; apply Z.leb_le; lia).
    reflexivity.
  - apply Z.leb_gt in E. simpl. unfold isDigit.
    rewrite byteZ_byteOfZ by lia.
    replace (48 <=? _) with true by (symmetry; apply Z.leb_le; lia).
    replace (_ <=? 57) with true by (symmetry; apply Z.leb_le; lia).
    reflexivity.
Qed.

Lemma fmtUint_length_le fuel u k :
  0 <= u < 10 ^ Z.of_nat k -> (0 < k)%nat -> (0 < fuel)%nat ->
  (length (fmtUint fuel u) <= k)%nat.
Proof.
  revert u k. induction fuel as [|f IH]; intros u k Hu Hk Hf; [lia|].
  simpl. destruct (10 <=? u) eqn:E.
  - apply Z.leb_le in E. rewrite length_app. simpl.
    destruct k as [|k]; [lia|].
    destruct k as [|k]; [simpl in Hu; lia|].
    destruct f as [|f]; [simpl; lia|].
    assert (length (fmtUint (S f) (u / 10)) <= S k)%nat; [|lia].
    apply IH; try lia.
    split; [apply Z.div_pos; lia|].
    apply Z.div_lt_upper_bound; [lia|].
    rewrite (Nat2Z.inj_succ (S k)), Z.pow_succ_r in Hu; lia.
  - simpl. lia.
Qed.

Lemma fmtUint_length_ge fuel u k :
  10 ^ Z.of_nat k <= u -> (k < fuel)%nat ->
  (k < length (fmtUint fuel u))%nat.
Proof.
  revert u k. induction fuel as [|f IH]; intros u k Hu Hf; [lia|].
  simpl. destruct (10 <=? u) eqn:E.
  - apply Z.leb_le in E. rewrite length_app. simpl.
    destruct k as [|k]; [lia|].
    assert (k < length (fmtUint f (u / 10)))%nat; [|lia].
    apply IH; [|lia].
    apply Z.div_le_lower_bound; [lia|].
    rewrite Nat2Z.inj_succ, Z.pow_succ_r in Hu; lia.
  - apply Z.leb_gt in E. simpl.
    destruct k as [|k]; [lia|].
    rewrite Nat2Z.inj_succ, Z.pow_succ_r in Hu by lia.
    assert (0 < 10 ^ Z.of_nat k) by (apply Z.pow_pos_nonneg; lia). lia.
Qed.

Lemma digitsValue_zeros n ds :
  digitsValue (replicate n "0"%byte ++ ds) = digitsValue ds.
Proof.
  unfold digitsValue. rewrite foldl_app. f_equal.
  induction n as [|n IH]; [reflexivity|]. simpl. exact IH.
Qed.

Lemma fmt06d_value u : 0 <= u < 2 ^ 64 -> digitsValue (fmt06d u) = u.
Proof.
  intros Hu. unfold fmt06d. rewrite digitsValue_zeros.
  apply fmtUint_value; [|lia]. change (Z.of_nat 20) with 20. lia.
Qed.

Lemma fmt06d_digits u : 0 <= u -> forallb isDigit (fmt06d u) = true.
Proof.
  intros Hu. unfold fmt06d. rewrite forallb_app, fmtUint_digits by lia.
  rewrite andb_true_r. generalize (6 - length (fmtUint 20 u))%nat as n.
  induction n as [|n IH]; [reflexivity|]. simpl. exact IH.
Qed.

Lemma fmt06d_length_ge u : (6 <= length (fmt06d u))%nat.
Proof. unfold fmt06d. rewrite length_app, length_replicate. lia. Qed.

Lemma fmt06d_length_small u :
  0 <= u < 1000000 -> length (fmt06d u) = 6%nat.
Proof.
  intros Hu. unfold fmt06d. rewrite length_app, length_replicate.
  assert (length (fmtUint 20 u) <= 6)%nat; [|lia].
  apply fmtUint_length_le; [change (10 ^ Z.of_nat 6) with 1000000; lia | lia | lia].
Qed.

Lemma fmt06d_length_large u :
  1000000 <= u -> (6 < length (fmt06d u))%nat.
Proof.
  intros Hu. unfold fmt06d. rewrite length_app, length_replicate.
  assert (6 < length (fmtUint 20 u))%nat; [|lia].
  apply fmtUint_length_ge; [change (10 ^ Z.of_nat 6) with 1000000; lia | lia].
Qed.

Lemma placeholder_inj a b :
  0 <= a < 2 ^ 64 -> 0 <= b < 2 ^ 64 -> placeholder a = placeholder b -> a = b.
Proof.
  intros Ha Hb H. unfold placeholder in H.
  apply app_inv_head, app_inv_tail in H.
  rewrite <- (fmt06d_value a), <- (fmt06d_value b), H by lia. reflexivity.
Qed.

Lemma placeholder_padded id : 0 <= id -> paddedPlaceholder (placeholder id).
Proof.
  intros Hid. exists (fmt06d id). split; [reflexivity|].
  split; [apply fmt06d_length_ge | apply fmt06d_digits; lia].
Qed.

End Placeholders.

(** ** The process-wide counter: every placeholder is minted once *)

Section GlobalCounter.

Import Sanitize.
Local Open Scope Z_scope.

Lemma minted_start : minted startProcess.
Proof.
  split; [simpl; lia|]. split.
  - intros req o t (m & Hm & _). simpl in Hm. rewrite lookup_empty in Hm. discriminate.
  - intros r1 o1 r2 o2 t (m & Hm & _). simpl in Hm. rewrite lookup_empty in Hm. discriminate.
Qed.

Lemma tokenMapOf_assigned p req o t :
  toToken (tokenMapOf p req) !! o = Some t -> assigned p req o t.
Proof.
  unfold tokenMapOf, assigned. destruct (tokenMaps p !! req) as [m|]; simpl.
  - intros H. exists m. split; [reflexivity | exact H].
  - rewrite lookup_empty. discriminate.
Qed.

Lemma assigned_tokenMapOf p req o t :
  assigned p req o t -> toToken (tokenMapOf p req) !! o = Some t.
Proof.
  intros (m & Hm & Ht). unfold tokenMapOf. rewrite Hm. exact Ht.
Qed.

(** One register call: what it returns is assigned afterwards, nothing
    assigned before is lost, and the counter moves by at most one. *)
Lemma registerIn_step p req o t p' :
  minted p -> globalCounter p + 1 < 2 ^ 64 ->
  registerIn p req o = (t, p') ->
  minted p'
  /\ assigned p' req o t
  /\ (forall r o' t', assigned p r o' t' -> assigned p' r o' t')
  /\ globalCounter p <= globalCounter p' <= globalCounter p + 1
  /\ exists id, 1 <= id <= globalCounter p' /\ t = placeholder id.
Proof.
  intros (Hg & Hid & Hinj) Hroom Hreg. unfold registerIn, register in Hreg.
  destruct (toToken (tokenMapOf p req) !! o) as [tok|] eqn:Hlook.
  - (* already registered: nothing changes but the map is stored back *)
    inversion Hreg; subst t p'; clear Hreg.
    assert (Hsame : forall r o' t', assigned
              {| globalCounter := globalCounter p;
                 tokenMaps := <[req:=tokenMapOf p req]> (tokenMaps p) |} r o' t'
              <-> assigned p r o' t').
    { intros r o' t'. split.
      - intros (m & Hm & Ht). simpl in Hm.
        destruct (decide (req = r)) as [->|Hne].
        + rewrite lookup_insert_eq in Hm. inversion Hm; subst m.
          apply tokenMapOf_assigned. exact Ht.
        + rewrite lookup_insert_ne in Hm by exact Hne. exists m. auto.
      - intros Ha. destruct (decide (req = r)) as [->|Hne].
        + exists (tokenMapOf p r). simpl. rewrite lookup_insert_eq.
          split; [reflexivity | apply assigned_tokenMapOf; exact Ha].
        + destruct Ha as (m & Hm & Ht). exists m. simpl.
          rewrite lookup_insert_ne by exact Hne. auto. }
    apply tokenMapOf_assigned in Hlook.
    split; [|split; [|split; [|split]]].
    + split; [simpl; lia|]. split.
      * intros r o' t' Ha. apply Hsame in Ha. apply Hid in Ha. exact Ha.
      * intros r1 o1 r2 o2 t' H1 H2. apply Hsame in H1, H2. eauto.
    + apply Hsame. exact Hlook.
    + intros r o' t' Ha. apply Hsame. exact Ha.
    + simpl. lia.
    + simpl. eapply Hid. exact Hlook.
  - (* a fresh original: the counter advances and the id is new *)
    inversion Hreg; subst t p'; clear Hreg.
    assert (Hc : counterAdd (globalCounter p) 1 = globalCounter p + 1).
    { unfold counterAdd. apply Z.mod_small. lia. }
    rewrite Hc.
    set (g' := globalCounter p + 1).
    set (p' := {| globalCounter := g'; tokenMaps := _ |}).
    assert (Hnew : forall r o' t', assigned p' r o' t' <->
               (r = req /\ o' = o /\ t' = placeholder g') \/ assigned p r o' t').
    { intros r o' t'. split.
      - intros (m & Hm & Ht). simpl in Hm.
        destruct (decide (req = r)) as [->|Hne].
        + rewrite lookup_insert_eq in Hm. inversion Hm; subst m. simpl in Ht.
          destruct (decide (o = o')) as [->|Hno].
          * rewrite lookup_insert_eq in Ht. inversion Ht. left. auto.
          * rewrite lookup_insert_ne in Ht by exact Hno.
            right. apply tokenMapOf_assigned. exact Ht.
        + rewrite lookup_insert_ne in Hm by exact Hne. right. exists m. auto.
      - intros [(-> & -> & ->) | Ha].
        + eexists. simpl. rewrite lookup_insert_eq. split; [reflexivity|].
          simpl. apply lookup_insert_eq.
        + destruct (decide (req = r)) as [->|Hne].
          * eexists. simpl. rewrite lookup_insert_eq. split; [reflexivity|].
            simpl. destruct (decide (o = o')) as [->|Hno].
            -- apply assigned_tokenMapOf in Ha. congruence.
            -- rewrite lookup_insert_ne by exact Hno.
               apply assigned_tokenMapOf. exact Ha.
          * destruct Ha as (m & Hm & Ht). exists m. simpl.
            rewrite lookup_insert_ne by exact Hne. auto. }
    assert (Hfresh : forall r o' t', assigned p r o' t' -> t' <> placeholder g').
    { intros r o' t' Ha Heq. apply Hid in Ha. destruct Ha as (id & Hrange & ->).
      apply placeholder_inj in Heq; unfold g' in *; lia. }
    split; [|split; [|split; [|split]]].
    + split; [simpl; unfold g'; lia|]. split.
      * intros r o' t' Ha. apply Hnew in Ha. destruct Ha as [(-> & -> & ->) | Ha].
        -- exists g'. simpl. unfold g'. split; [lia | reflexivity].
        -- apply Hid in Ha. destruct Ha as (id & Hrange & ->).
           exists id. simpl. unfold g'. split; [lia | reflexivity].
      * intros r1 o1 r2 o2 t' H1 H2. apply Hnew in H1, H2.
        destruct H1 as [(-> & -> & ->) | H1], H2 as [(-> & -> & E2) | H2].
        -- auto.
        -- exfalso. eapply Hfresh; eauto.
        -- exfalso. subst t'. eapply Hfresh; eauto.
        -- eauto.
    + apply Hnew. left. auto.
    + intros r o' t' Ha. apply Hnew. right. exact Ha.
    + simpl. unfold g'. lia.
    + exists g'. simpl. unfold g'. split; [lia | reflexivity].
Qed.

Lemma runRegisters_length p ops toks p' :
  runRegisters p ops = (toks, p') -> length toks = length ops.
Proof.
  revert p toks p'. induction ops as [|[req o] ops IH]; intros p toks p' H; simpl in H.
  - inversion H. reflexivity.
  - destruct (registerIn p req o) as [tok p1].
    destruct (runRegisters p1 ops) as [toks' p2] eqn:E.
    inversion H; subst. simpl. f_equal. eapply IH. exact E.
Qed.

(** A whole run, as long as the 64-bit counter has room for it. *)
Lemma runRegisters_minted p ops toks p' :
  minted p -> globalCounter p + Z.of_nat (length ops) < 2 ^ 64 ->
  runRegisters p ops = (toks, p') ->
  minted p'
  /\ (forall r o t, assigned p r o t -> assigned p' r o t)
  /\ globalCounter p' <= globalCounter p + Z.of_nat (length ops)
  /\ (forall i r o t, ops !! i = Some (r, o) -> toks !! i = Some t ->
        assigned p' r o t).
Proof.
  revert p toks p'. induction ops as [|[req o] ops IH]; intros p toks p' Hm Hroom H;
    simpl in H.
  - inversion H; subst. split; [exact Hm|]. split; [auto|]. split; [simpl; lia|].
    intros i r o t Hi. rewrite lookup_nil in Hi. discriminate.
  - destruct (registerIn p req o) as [tok p1] eqn:E1.
    destruct (runRegisters p1 ops) as [toks' p2] eqn:E2.
    inversion H; subst toks p'; clear H.
    rewrite length_cons in Hroom.
    apply registerIn_step in E1; [|exact Hm|lia].
    destruct E1 as (Hm1 & Ha1 & Hkeep1 & Hg1 & _).
    apply IH in E2; [|exact Hm1|lia].
    destruct E2 as (Hm2 & Hkeep2 & Hg2 & Hres).
    split; [exact Hm2|]. split; [auto|]. split; [rewrite length_cons; lia|].
    intros i r o' t Hi Ht. destruct i as [|i]; simpl in Hi, Ht.
    + inversion Hi; inversion Ht; subst. auto.
    + eauto.
Qed.

(** Fresh requests, one original each: the counter reaches any value, and
    the [n]-th call mints the placeholder of id [n]. *)
Lemma freshRequests_run n p :
  0 <= globalCounter p -> globalCounter p + Z.of_nat n < 2 ^ 64 ->
  (forall r, (r < n)%nat -> tokenMaps p !! r = None) ->
  exists toks p',
    runRegisters p (map (fun r => (r, [])) (rev (seq 0 n))) = (toks, p')
    /\ globalCounter p' = globalCounter p + Z.of_nat n
    /\ ((0 < n)%nat ->
        last toks = Some (placeholder (globalCounter p + Z.of_nat n))).
Proof.
  revert p. induction n as [|n IH]; intros p Hg Hroom Hfree.
  - exists [], p. simpl. split; [reflexivity|]. split; lia.
  - rewrite seq_S, rev_app_distr. simpl.
    unfold registerIn, register, tokenMapOf.
    rewrite (Hfree n) by lia. simpl. rewrite lookup_empty.
    set (p1 := {| globalCounter := _; tokenMaps := _ |}).
    assert (Hc : globalCounter p1 = globalCounter p + 1).
    { simpl. unfold counterAdd. apply Z.mod_small. lia. }
    destruct (IH p1) as (toks & p' & Hrun & Hfin & Hlast).
    + lia.
    + lia.
    + intros r Hr. simpl. rewrite lookup_insert_ne by lia. apply Hfree. lia.
    + rewrite Hrun. eexists _, p'. split; [reflexivity|]. split; [lia|].
      intros _. destruct n as [|n].
      * simpl in Hrun. inversion Hrun; subst toks. simpl.
        unfold counterAdd. rewrite Z.mod_small by lia. reflexivity.
      * rewrite last_cons, Hlast by lia. rewrite Hc. do 2 f_equal. lia.
Qed.


(** C6, as stated, fails: the one-millionth id registered since the process
    started is formatted with seven digits.  The run below registers one
    original in each of 1,000,000 fresh requests; the last placeholder it
    returns is «TOKEN_1000000», which has not the six-digit shape. *)
Lemma millionth_placeholder_has_seven_digits :
  exists ops tok,
    last (fst (runRegisters startProcess ops)) = Some tok
    /\ tok = B "«TOKEN_1000000»"
    /\ ~ sixDigitPlaceholder tok.
Proof.
  destruct (freshRequests_run (Z.to_nat 1000000) startProcess)
    as (toks & p' & Hrun & _ & Hlast).
  - simpl. lia.
  - simpl. lia.
  - intros r _. apply lookup_empty.
  - exists (map (fun r => (r, [])) (rev (seq 0 (Z.to_nat 1000000)))).
    exists (placeholder 1000000). rewrite Hrun. simpl fst.
    split; [rewrite Hlast by lia; reflexivity|].
    split; [vm_compute; reflexivity|].
    intros (ds & Heq & Hlen & _).
    apply (f_equal length) in Heq. rewrite !length_app, Hlen in Heq.
    vm_compute in Heq. discriminate.
Qed.

(** C6 (amended): in every run of register calls from process start that
    issues fewer than 2^64 ids, each placeholder returned is «TOKEN_, the
    decimal id zero-padded to at least six digits, and »; it has exactly six
    digits while the id is below 1,000,000; and calls for distinct originals,
    in whichever TokenMaps, return distinct placeholders. *)
Theorem register_placeholders_padded_and_distinct (ops : list (nat * bytes)) :
  Z.of_nat (length ops) < 2 ^ 64 ->
  let toks := fst (runRegisters startProcess ops) in
  (forall t, t ∈ toks ->
     exists id, 1 <= id <= Z.of_nat (length ops)
       /\ t = placeholder id
       /\ paddedPlaceholder t
       /\ (id < 1000000 -> sixDigitPlaceholder t))
  /\ (forall i j ri oi rj oj ti tj,
        ops !! i = Some (ri, oi) -> ops !! j = Some (rj, oj) ->
        toks !! i = Some ti -> toks !! j = Some tj ->
        oi <> oj -> ti <> tj).
Proof.
  intros Hroom toks. subst toks.
  destruct (runRegisters startProcess ops) as [toks p'] eqn:Hrun. simpl fst.
  pose proof (runRegisters_length _ _ _ _ Hrun) as Hlen.
  apply runRegisters_minted in Hrun; [|exact minted_start|simpl; lia].
  destruct Hrun as ((Hg & Hid & Hinj) & _ & Hbound & Hres). simpl in Hbound.
  split.
  - intros t Ht. apply list_elem_of_lookup in Ht. destruct Ht as [i Hi].
    destruct (ops !! i) as [[r o]|] eqn:Hop.
    + destruct (Hid r o t (Hres i r o t Hop Hi)) as (id & Hrange & ->).
      exists id. split; [lia|]. split; [reflexivity|].
      split; [apply placeholder_padded; lia|].
      intros Hsmall. exists (fmt06d id). split; [reflexivity|].
      split; [apply fmt06d_length_small; lia | apply fmt06d_digits; lia].
    + apply lookup_ge_None in Hop. apply lookup_lt_Some in Hi. lia.
  - intros i j ri oi rj oj ti tj Hi Hj Hti Htj Hne Heq. subst tj.
    destruct (Hinj ri oi rj oj ti (Hres _ _ _ _ Hi Hti) (Hres _ _ _ _ Hj Htj))
      as [_ Ho]. contradiction.
Qed.

(** The theorem at a run of three calls over two requests. *)
Lemma register_placeholders_witness :
  let ops := [(0%nat, B "sk-abc123"); (0%nat, B "alice@x.com"); (1%nat, B "sk-abc123")] in
  let toks := fst (runRegisters startProcess ops) in
  toks = [B "«TOKEN_000001»"; B "«TOKEN_000002»"; B "«TOKEN_000003»"]
  /\ (forall t, t ∈ toks ->
       exists id, 1 <= id <= Z.of_nat (length ops)
         /\ t = placeholder id
         /\ paddedPlaceholder t
         /\ (id < 1000000 -> sixDigitPlaceholder t))
  /\ (forall i j ri oi rj oj ti tj,
        ops !! i = Some (ri, oi) -> ops !! j = Some (rj, oj) ->
        toks !! i = Some ti -> toks !! j = Some tj ->
        oi <> oj -> ti <> tj).
Proof.
  split; [vm_compute; reflexivity|].
  apply (register_placeholders_padded_and_distinct
           [(0%nat, B "sk-abc123"); (0%nat, B "alice@x.com"); (1%nat, B "sk-abc123")]).
  vm_compute. reflexivity.
Defined.

End GlobalCounter.

(** ** Span validation *)

Section SpanValidation.

Import Sanitize.
Local Open Scope Z_scope.

Lemma isWordBoundaryByte_set (c : byte) :
  isWordBoundaryByte c = bool_decide (c ∈ wordBoundarySet).
Proof. destruct c; vm_compute; reflexivity. Qed.

Lemma isWordBoundaryByte_spec (c : byte) :
  isWordBoundaryByte c = true <-> c ∈ wordBoundarySet.
Proof. rewrite isWordBoundaryByte_set. apply bool_decide_eq_true. Qed.

Lemma continuation_mask (c : byte) :
  (Z.land (byteZ c) 0xC0 =? 0x80) = (128 <=? byteZ c) && (byteZ c <? 192).
Proof. destruct c; vm_compute; reflexivity. Qed.

Lemma continuation_mask_spec (c : byte) :
  negb (Z.land (byteZ c) 0xC0 =? 0x80) = true <-> ~ continuationByte c.
Proof.
  rewrite continuation_mask. unfold continuationByte.
  destruct (128 <=? byteZ c) eqn:E1; destruct (byteZ c <? 192) eqn:E2; simpl;
    try apply Z.leb_le in E1; try apply Z.leb_gt in E1;
    try apply Z.ltb_lt in E2; try apply Z.ltb_ge in E2;
    split; intros H; try discriminate; try reflexivity; try lia.
Qed.

Lemma index_lookup (s : bytes) (i : Z) :
  0 <= i -> index s i = s !! Z.to_nat i.
Proof.
  intros Hi. unfold index. destruct (0 <=? i) eqn:E; [reflexivity|].
  apply Z.leb_gt in E. lia.
Qed.

Lemma index_in_range (s : bytes) (i : Z) :
  0 <= i < Z.of_nat (length s) -> exists c, index s i = Some c.
Proof.
  intros Hi. rewrite index_lookup by lia.
  destruct (lookup_lt_is_Some_2 s (Z.to_nat i)) as [c Hc]; [lia|]. eauto.
Qed.

Lemma slice_in_range (s : bytes) (a b : Z) :
  0 <= a -> a <= b -> b <= Z.of_nat (length s) ->
  slice s a b = Some (take (Z.to_nat b - Z.to_nat a) (drop (Z.to_nat a) s)).
Proof.
  intros Ha Hab Hb. unfold slice.
  replace (0 <=? a) with true by (symmetry; apply Z.leb_le; lia).
  replace (a <=? b) with true by (symmetry; apply Z.leb_le; lia).
  replace (b <=? Z.of_nat (length s)) with true by (symmetry; apply Z.leb_le; lia).
  reflexivity.
Qed.

Lemma isRuneBoundary_spec (text : bytes) (i : Z) :
  0 <= i <= Z.of_nat (length text) ->
  exists b, isRuneBoundary text i = Some b
            /\ (b = true <-> codePointBoundary text i).
Proof.
  intros Hi. unfold isRuneBoundary, codePointBoundary.
  destruct (i =? 0) eqn:E0; simpl.
  { apply Z.eqb_eq in E0. exists true. split; [reflexivity|]. split; auto. }
  destruct (i =? Z.of_nat (length text)) eqn:E1.
  { apply Z.eqb_eq in E1. exists true. split; [reflexivity|]. split; auto. }
  apply Z.eqb_neq in E0, E1.
  destruct (index_in_range text i) as [c Hc]; [lia|]. rewrite Hc. simpl.
  eexists. split; [reflexivity|]. rewrite continuation_mask_spec.
  rewrite index_lookup in Hc by lia. split.
  - intros Hn. right. right. exists c. auto.
  - intros [?|[?|(c' & Hc' & Hn)]]; [lia|lia|]. congruence.
Qed.

(** *** The regular expression *)

Lemma skipDigits_split (s : bytes) :
  exists ds, s = ds ++ skipDigits s /\ forallb isDigit ds = true.
Proof.
  induction s as [|c s (ds & Heq & Hds)]; [exists []; auto|].
  simpl. destruct (isDigit c) eqn:E.
  - exists (c :: ds). simpl. rewrite E, Hds. split; [congruence | reflexivity].
  - exists []. auto.
Qed.

Lemma skipDigits_app (ds r : bytes) :
  forallb isDigit ds = true -> skipDigits (ds ++ r) = skipDigits r.
Proof.
  induction ds as [|c ds IH]; [reflexivity|]. simpl.
  intros H. apply andb_true_iff in H. destruct H as [Hc Hds].
  rewrite Hc. auto.
Qed.

Lemma skipDigits_suffix (post : bytes) :
  skipDigits (tokenSuffix ++ post) = tokenSuffix ++ post.
Proof. reflexivity. Qed.

Lemma matchPlaceholderHere_spec (s : bytes) :
  matchPlaceholderHere s = true <->
  exists ds post, s = tokenPrefix ++ ds ++ tokenSuffix ++ post
                  /\ ds <> [] /\ forallb isDigit ds = true.
Proof.
  unfold matchPlaceholderHere. rewrite andb_true_iff, hasPrefix_spec. split.
  - intros [[r ->] H]. rewrite drop_app_length in H.
    destruct r as [|c r]; [discriminate|].
    apply andb_true_iff in H. destruct H as [Hc H].
    apply hasPrefix_spec in H. destruct H as [post Hpost].
    destruct (skipDigits_split r) as (ds & Hr & Hds).
    exists (c :: ds), post. split; [|split].
    + apply (f_equal (app tokenPrefix)).
      transitivity (c :: ds ++ skipDigits r); [f_equal; exact Hr|].
      rewrite Hpost. reflexivity.
    + discriminate.
    + simpl. rewrite Hc, Hds. reflexivity.
  - intros (ds & post & -> & Hne & Hds). split; [eexists; reflexivity|].
    rewrite drop_app_length. destruct ds as [|c ds]; [contradiction|].
    simpl in Hds. apply andb_true_iff in Hds. destruct Hds as [Hc Hds].
    change (isDigit c && hasPrefix (skipDigits (ds ++ tokenSuffix ++ post)) tokenSuffix = true).
    rewrite Hc, skipDigits_app by exact Hds. rewrite skipDigits_suffix.
    apply hasPrefix_spec. eexists. reflexivity.
Qed.

Lemma MatchString_spec (s : bytes) :
  MatchString s = true <-> containsPlaceholder s.
Proof.
  unfold containsPlaceholder. induction s as [|c s IH].
  - change (MatchString []) with false. split; [discriminate|].
    intros (pre & ds & post & H & _). symmetry in H.
    apply app_eq_nil in H. destruct H as [_ H].
    apply app_eq_nil in H. destruct H as [H _]. discriminate.
  - change (MatchString (c :: s))
      with (matchPlaceholderHere (c :: s) || MatchString s).
    rewrite orb_true_iff, matchPlaceholderHere_spec, IH. split.
    + intros [(ds & post & H)|(pre & ds & post & H & Hr)].
      * exists [], ds, post. exact H.
      * subst s. exists (c :: pre), ds, post. split; [reflexivity | exact Hr].
    + intros (pre & ds & post & H & Hr). destruct pre as [|c' pre].
      * left. exists ds, post. auto.
      * right. change (c :: s = c' :: (pre ++ tokenPrefix ++ ds ++ tokenSuffix ++ post)) in H.
        injection H as _ H. exists pre, ds, post. auto.
Qed.

(** *** One span *)

Lemma keepSpan_spec (text : bytes) (sp : Span) :
  exists k, keepSpan text sp = Some k /\ (k = true <-> SpanOK text sp).
Proof.
  unfold keepSpan, SpanOK.
  destruct (Start sp <? 0) eqn:B1; simpl.
  { apply Z.ltb_lt in B1. exists false. split; [reflexivity|].
    split; [discriminate | intros H; lia]. }
  destruct (End sp >? Z.of_nat (length text)) eqn:B2; simpl.
  { apply Z.gtb_lt in B2. exists false. split; [reflexivity|].
    split; [discriminate | intros H; lia]. }
  destruct (Start sp >=? End sp) eqn:B3; simpl.
  { apply Z.geb_le in B3. exists false. split; [reflexivity|].
    split; [discriminate | intros H; lia]. }
  apply Z.ltb_ge in B1.
  assert (B2' : End sp <= Z.of_nat (length text)).
  { rewrite Z.gtb_ltb in B2. apply Z.ltb_ge in B2. exact B2. }
  assert (B3' : Start sp < End sp).
  { rewrite Z.geb_leb in B3. apply Z.leb_gt in B3. exact B3. }
  destruct (isRuneBoundary_spec text (Start sp)) as (b1 & -> & Hb1); [lia|].
  simpl. destruct b1; simpl.
  2:{ exists false. split; [reflexivity|]. split; [discriminate|].
      intros (_ & _ & H & _). apply Hb1 in H. discriminate. }
  destruct (isRuneBoundary_spec text (End sp)) as (b2 & -> & Hb2); [lia|].
  simpl. destruct b2; simpl.
  2:{ exists false. split; [reflexivity|]. split; [discriminate|].
      intros (_ & _ & _ & H & _). apply Hb2 in H. discriminate. }
  rewrite slice_in_range by lia. simpl.
  set (sub := take _ _).
  destruct (MatchString sub) eqn:M.
  { exists false. split; [reflexivity|]. split; [discriminate|].
    intros (_ & _ & _ & _ & H & _). exfalso.
    apply (H sub); [reflexivity | apply MatchString_spec; exact M]. }
  assert (Hsub : forall sub', Some sub = Some sub' -> ~ containsPlaceholder sub').
  { intros sub' E. inversion E; subst sub'. rewrite <- MatchString_spec, M.
    discriminate. }
  destruct (Start sp >? 0) eqn:S0.
  - apply Z.gtb_lt in S0.
    destruct (index_in_range text (Start sp - 1)) as [c Hc]; [lia|].
    rewrite Hc. simpl. rewrite index_lookup in Hc by lia.
    destruct (isWordBoundaryByte c) eqn:W; simpl.
    2:{ exists false. split; [reflexivity|]. split; [discriminate|].
        intros (_ & _ & _ & _ & _ & H & _).
        destruct H as (c' & Hc' & Hin); [lia|].
        apply isWordBoundaryByte_spec in Hin. congruence. }
    apply isWordBoundaryByte_spec in W.
    destruct (End sp <? Z.of_nat (length text)) eqn:E1.
    + apply Z.ltb_lt in E1.
      destruct (index_in_range text (End sp)) as [e He]; [lia|].
      rewrite He. simpl. rewrite index_lookup in He by lia.
      eexists. split; [reflexivity|]. rewrite isWordBoundaryByte_spec. split.
      * intros We. repeat split; try lia; try tauto; try exact Hsub.
        -- intros _. exists c. auto.
        -- intros _. exists e. auto.
      * intros (_ & _ & _ & _ & _ & _ & H).
        destruct H as (e' & He' & Hin); [lia|]. congruence.
    + apply Z.ltb_ge in E1. exists true. split; [reflexivity|].
      split; [|reflexivity]. intros _.
      repeat split; try lia; try tauto; try exact Hsub.
      intros _. exists c. auto.
  - rewrite Z.gtb_ltb in S0. apply Z.ltb_ge in S0. simpl.
    destruct (End sp <? Z.of_nat (length text)) eqn:E1.
    + apply Z.ltb_lt in E1.
      destruct (index_in_range text (End sp)) as [e He]; [lia|].
      rewrite He. simpl. rewrite index_lookup in He by lia.
      eexists. split; [reflexivity|]. rewrite isWordBoundaryByte_spec. split.
      * intros We. repeat split; try lia; try tauto; try exact Hsub.
        intros _. exists e. auto.
      * intros (_ & _ & _ & _ & _ & _ & H).
        destruct H as (e' & He' & Hin); [lia|]. congruence.
    + apply Z.ltb_ge in E1. exists true. split; [reflexivity|].
      split; [|reflexivity]. intros _.
      repeat split; try lia; try tauto; try exact Hsub.
Qed.

Lemma validSpans_total_kept (text : bytes) (spans : list Span) :
  exists out, validSpans text spans = Some out /\ keptSpans text spans out.
Proof.
  induction spans as [|sp rest (out & Hout & Hkept)].
  - exists []. split; [reflexivity | constructor].
  - simpl. destruct (keepSpan_spec text sp) as (k & -> & Hk). simpl.
    rewrite Hout. simpl. destruct k.
    + exists (sp :: out). split; [reflexivity|].
      apply kept_keep; [apply Hk; reflexivity | exact Hkept].
    + exists out. split; [reflexivity|].
      apply kept_drop; [|exact Hkept]. intros H. apply Hk in H. discriminate.
Qed.

(** C4: [validSpans] never panics, and it keeps a span if and only if the
    span has [0 <= start < end <= len(text)], starts and ends on code-point
    boundaries, covers no «TOKEN_digits» placeholder, and is delimited on
    both sides (where there is a byte) by one of the seventeen
    word-boundary bytes. *)
Theorem validSpans_keeps_exactly_the_valid_spans (text : bytes) (spans : list Span) :
  exists out, validSpans text spans = Some out /\ keptSpans text spans out.
Proof. apply validSpans_total_kept. Qed.

Lemma keptSpans_elem text spans out sp :
  keptSpans text spans out -> sp ∈ out -> sp ∈ spans /\ SpanOK text sp.
Proof.
  induction 1 as [|s rest out Hok _ IH|s rest out Hno _ IH]; intros Hin.
  - inversion Hin.
  - apply elem_of_cons in Hin. destruct Hin as [->|Hin].
    + split; [left | exact Hok].
    + destruct (IH Hin). split; [right; assumption | assumption].
  - destruct (IH Hin). split; [right; assumption | assumption].
Qed.

End SpanValidation.

(** ** Sorting, deduplication and the replacement loop *)

Section Redaction.

Import Sanitize.
Local Open Scope Z_scope.

(** *** [sortSpansDesc] is an insertion sort *)

Lemma insertRev_length rpre x : length (insertRev rpre x) = S (length rpre).
Proof.
  induction rpre as [|y r IH]; [reflexivity|]. simpl.
  destruct (Start x >? Start y); simpl; [rewrite IH|]; reflexivity.
Qed.

Lemma insertRev_perm rpre x : insertRev rpre x ≡ₚ x :: rpre.
Proof.
  induction rpre as [|y r IH]; [reflexivity|]. simpl.
  destruct (Start x >? Start y); [|reflexivity].
  rewrite IH. apply Permutation_swap.
Qed.

Lemma sortInner_insert rpre x post :
  sortInner (rev rpre ++ x :: post) (length rpre) = rev (insertRev rpre x) ++ post.
Proof.
  revert post. induction rpre as [|y r IH]; intros post; [reflexivity|].
  change (rev (y :: r)) with (rev r ++ [y]). rewrite <- app_assoc.
  change ([y] ++ x :: post) with (y :: x :: post).
  change (length (y :: r)) with (S (length r)).
  assert (Hlen : length (rev r) = length r) by apply length_rev.
  change (sortInner ?l (S ?j)) with
    (match l !! S j, l !! j with
     | Some a, Some b =>
         if Start a >? Start b then sortInner (<[j := a]> (<[S j := b]> l)) j else l
     | _, _ => l
     end).
  assert (H1 : (rev r ++ y :: x :: post) !! S (length r) = Some x).
  { rewrite lookup_app_r by lia. rewrite Hlen.
    replace (S (length r) - length r)%nat with 1%nat by lia. reflexivity. }
  assert (H0 : (rev r ++ y :: x :: post) !! length r = Some y).
  { rewrite lookup_app_r by lia. rewrite Hlen, Nat.sub_diag. reflexivity. }
  rewrite H1, H0. simpl insertRev. destruct (Start x >? Start y).
  - rewrite (insert_app_r_alt _ _ (S (length r))) by lia. rewrite Hlen.
    replace (S (length r) - length r)%nat with 1%nat by lia.
    change (<[1%nat := y]> (y :: x :: post)) with (y :: y :: post).
    rewrite (insert_app_r_alt _ _ (length r)) by lia. rewrite Hlen, Nat.sub_diag.
    change (<[0%nat := x]> (y :: y :: post)) with (x :: y :: post).
    rewrite IH. change (rev (y :: insertRev r x)) with (rev (insertRev r x) ++ [y]).
    rewrite <- app_assoc. reflexivity.
  - change (rev (x :: y :: r)) with ((rev r ++ [y]) ++ [x]).
    rewrite <- !app_assoc. reflexivity.
Qed.

Lemma sortOuter_insert rest rpre :
  exists rout,
    sortOuter (rev rpre ++ rest) (length rpre) (length rest) = rev rout
    /\ rout ≡ₚ rpre ++ rest
    /\ (StronglySorted (fun a b => Start a <= Start b) rpre ->
        StronglySorted (fun a b => Start a <= Start b) rout).
Proof.
  revert rpre. induction rest as [|x rest IH]; intros rpre.
  - exists rpre. rewrite !app_nil_r. simpl. auto.
  - simpl sortOuter. rewrite sortInner_insert.
    destruct (IH (insertRev rpre x)) as (rout & Heq & Hperm & Hsorted).
    rewrite insertRev_length in Heq. exists rout. split; [exact Heq|]. split.
    + rewrite Hperm, insertRev_perm. apply Permutation_middle.
    + intros Hs. apply Hsorted. clear - Hs.
      induction rpre as [|y r IH]; simpl.
      * repeat constructor.
      * apply StronglySorted_inv in Hs. destruct Hs as [Hr Hy].
        destruct (Start x >? Start y) eqn:E.
        -- apply Z.gtb_lt in E. constructor; [apply IH; exact Hr|].
           rewrite insertRev_perm. constructor; [lia | exact Hy].
        -- rewrite Z.gtb_ltb in E. apply Z.ltb_ge in E.
           constructor; [constructor; assumption|].
           constructor; [exact E|].
           eapply Forall_impl; [exact Hy|]. simpl. intros; lia.
Qed.

Lemma sortSpansDesc_perm spans : sortSpansDesc spans ≡ₚ spans.
Proof.
  unfold sortSpansDesc. destruct spans as [|x rest]; [reflexivity|].
  replace (length (x :: rest) - 1)%nat with (length rest) by (simpl; lia).
  destruct (sortOuter_insert rest [x]) as (rout & Heq & Hperm & _).
  simpl in Heq. rewrite Heq, <- Permutation_rev. exact Hperm.
Qed.

(** The result is in descending order of [Start]. *)
Lemma sortSpansDesc_sorted spans :
  StronglySorted (fun a b => Start b <= Start a) (sortSpansDesc spans).
Proof.
  unfold sortSpansDesc. destruct spans as [|x rest]; [constructor|].
  replace (length (x :: rest) - 1)%nat with (length rest) by (simpl; lia).
  destruct (sortOuter_insert rest [x]) as (rout & Heq & _ & Hsorted).
  simpl in Heq. rewrite Heq.
  assert (Hs : StronglySorted (fun a b => Start a <= Start b) rout).
  { apply Hsorted. repeat constructor. }
  clear - Hs. induction Hs as [|a l Hl IH Ha]; [constructor|].
  simpl. apply StronglySorted_app_2; [|exact IH | repeat constructor].
  intros b c Hb Hc. apply list_elem_of_singleton in Hc. subst c.
  rewrite <- Permutation_rev in Hb.
  rewrite Forall_forall in Ha. apply Ha. exact Hb.
Qed.

(** *** [deduplicateSpans] keeps a chain of intervals *)

Lemma dedupFrom_chain spans L :
  Forall (fun sp => 0 <= Start sp < End sp) spans ->
  StronglySorted leftOf (dedupFrom L spans)
  /\ (L <> -1 -> Forall (fun sp => End sp <= L) (dedupFrom L spans))
  /\ dedupFrom L spans ⊆ spans.
Proof.
  intros Hvalid. revert L. induction Hvalid as [|sp rest Hsp _ IH]; intros L.
  - simpl. split; [constructor|]. split; [constructor | reflexivity].
  - simpl. destruct ((L =? -1) || (End sp <=? L)) eqn:E.
    + destruct (IH (Start sp)) as (Hs & Hb & Hsub).
      specialize (Hb ltac:(lia)). split; [|split].
      * constructor; [exact Hs | exact Hb].
      * intros HL. constructor.
        -- apply orb_true_iff in E. destruct E as [E|E];
             [apply Z.eqb_eq in E; lia | apply Z.leb_le in E; exact E].
        -- apply orb_true_iff in E. destruct E as [E|E];
             [apply Z.eqb_eq in E; lia|]. apply Z.leb_le in E.
           eapply Forall_impl; [exact Hb|]. simpl. intros; lia.
      * intros x Hx. apply elem_of_cons in Hx. destruct Hx as [->|Hx];
          [left | right; apply Hsub; exact Hx].
    + destruct (IH L) as (Hs & Hb & Hsub). split; [exact Hs|].
      split; [exact Hb|]. intros x Hx. right. apply Hsub. exact Hx.
Qed.

Lemma StronglySorted_lookup {A} (R : A -> A -> Prop) (l : list A) i j a b :
  StronglySorted R l -> (i < j)%nat -> l !! i = Some a -> l !! j = Some b -> R a b.
Proof.
  intros Hs. revert i j. induction Hs as [|x l Hl IH Hx]; intros i j Hij Hi Hj.
  - rewrite lookup_nil in Hi. discriminate.
  - destruct j as [|j]; [lia|]. simpl in Hj. destruct i as [|i].
    + simpl in Hi. inversion Hi; subst a.
      rewrite Forall_forall in Hx. apply Hx. eapply list_elem_of_lookup_2. exact Hj.
    + simpl in Hi. apply (IH i j); [lia | exact Hi | exact Hj].
Qed.

(** What validation, sorting and deduplication leave. *)
Lemma appliedSpans_chain original allSpans :
  exists applied,
    appliedSpans original allSpans = Some applied
    /\ StronglySorted leftOf applied
    /\ Forall (fun sp => 0 <= Start sp < End sp
                         /\ End sp <= Z.of_nat (length original)) applied.
Proof.
  unfold appliedSpans.
  destruct (validSpans_total_kept original allSpans)
    as (valid & -> & Hkept).
  simpl. eexists. split; [reflexivity|].
  assert (Hok : Forall (fun sp => 0 <= Start sp < End sp
                    /\ End sp <= Z.of_nat (length original)) (sortSpansDesc valid)).
  { apply Forall_forall. intros sp Hsp. rewrite sortSpansDesc_perm in Hsp.
    destruct (keptSpans_elem _ _ _ _ Hkept Hsp) as [_ (H1 & H2 & _)]. auto. }
  destruct (dedupFrom_chain (sortSpansDesc valid) (-1)) as (Hs & _ & Hsub).
  { eapply Forall_impl; [exact Hok|]. simpl. intros sp [H _]. exact H. }
  split; [exact Hs|].
  apply Forall_forall. intros sp Hsp. apply Hsub in Hsp.
  rewrite Forall_forall in Hok. apply Hok. exact Hsp.
Qed.


(** *** The replacement loop *)

Lemma slice_as_drop_take (s : bytes) (a b : Z) :
  0 <= a -> a <= b -> b <= Z.of_nat (length s) ->
  slice s a b = Some (drop (Z.to_nat a) (take (Z.to_nat b) s)).
Proof.
  intros Ha Hab Hb. rewrite slice_in_range by lia. f_equal.
  rewrite take_drop_commute. do 2 f_equal. lia.
Qed.

Lemma sliceTo_take (s : bytes) (b : Z) :
  0 <= b <= Z.of_nat (length s) -> sliceTo s b = Some (take (Z.to_nat b) s).
Proof.
  intros Hb. unfold sliceTo. rewrite slice_in_range by lia.
  simpl. rewrite Nat.sub_0_r. reflexivity.
Qed.

Lemma sliceFrom_drop (s : bytes) (a : Z) :
  0 <= a <= Z.of_nat (length s) -> sliceFrom s a = Some (drop (Z.to_nat a) s).
Proof.
  intros Ha. unfold sliceFrom. rewrite slice_in_range by lia. f_equal.
  apply take_ge. rewrite length_drop. lia.
Qed.

Lemma redactLoop_app l1 l2 text g tm :
  redactLoop (l1 ++ l2) text g tm =
  match redactLoop l1 text g tm with
  | Some (t, g', tm') => redactLoop l2 t g' tm'
  | None => None
  end.
Proof.
  revert text g tm. induction l1 as [|sp l1 IH]; intros text g tm; [reflexivity|].
  simpl. destruct (slice text (Start sp) (End sp)) as [matched|]; [|reflexivity].
  simpl. destruct (register g tm matched) as [[tok g'] tm'].
  destruct (sliceTo text (Start sp)) as [pre|]; [|reflexivity]. simpl.
  destruct (sliceFrom text (End sp)) as [post|]; [|reflexivity]. simpl.
  apply IH.
Qed.

(** One iteration, when the span lies inside the current text. *)
Lemma redactLoop_cons sp rest text g tm :
  0 <= Start sp -> Start sp <= End sp -> End sp <= Z.of_nat (length text) ->
  redactLoop (sp :: rest) text g tm =
  let '(tok, g', tm') :=
    register g tm (drop (Z.to_nat (Start sp)) (take (Z.to_nat (End sp)) text)) in
  redactLoop rest
    (take (Z.to_nat (Start sp)) text ++ tok ++ drop (Z.to_nat (End sp)) text) g' tm'.
Proof.
  intros H0 H1 H2. simpl.
  rewrite slice_as_drop_take, sliceTo_take, sliceFrom_drop by lia. simpl.
  destruct (register g tm _) as [[tok g'] tm']. reflexivity.
Qed.

(** The loop on a chain of spans below [E] never panics, and it leaves
    untouched every offset to the left of the spans it replaced. *)
Lemma redactLoop_chain l text g tm E :
  StronglySorted leftOf l ->
  Forall (fun sp => 0 <= Start sp < End sp /\ End sp <= E) l ->
  E <= Z.of_nat (length text) ->
  exists text' g' tm',
    redactLoop l text g tm = Some (text', g', tm')
    /\ forall F, 0 <= F -> Forall (fun sp => F <= Start sp) l ->
         take (Z.to_nat F) text' = take (Z.to_nat F) text.
Proof.
  intros Hs. revert text g tm E.
  induction Hs as [|sp rest Hrest IH Hleft]; intros text g tm E Hok HE.
  - exists text, g, tm. split; [reflexivity | auto].
  - apply Forall_cons in Hok. destruct Hok as [(Hsp & HspE) Hok].
    rewrite redactLoop_cons by lia.
    destruct (register g tm _) as [[tok g1] tm1].
    set (t1 := take (Z.to_nat (Start sp)) text ++ tok ++ drop (Z.to_nat (End sp)) text).
    destruct (IH t1 g1 tm1 (Start sp)) as (text' & g' & tm' & Hrun & Hstable).
    + apply Forall_forall. intros x Hx.
      rewrite Forall_forall in Hok, Hleft.
      destruct (Hok x Hx) as [Hx1 _]. specialize (Hleft x Hx).
      unfold leftOf in Hleft. lia.
    + unfold t1. rewrite length_app, length_take. lia.
    + exists text', g', tm'. split; [exact Hrun|].
      intros F HF HFl. apply Forall_cons in HFl. destruct HFl as [HFsp HFl].
      rewrite (Hstable F HF HFl). unfold t1.
      rewrite take_app_le by (rewrite length_take; lia).
      rewrite take_take. f_equal. lia.
Qed.

(** C5: the spans [redactText] applies (validated, sorted by descending
    start, deduplicated) are pairwise disjoint, the replacement loop runs
    without a panic, and when the loop reaches a span [sp] the current text
    still agrees with the original below [End sp]: the bytes the placeholder
    replaces are exactly [original[Start:End]], and the text before the
    placeholder is the original's [original[:Start]]. *)
Theorem applied_spans_disjoint_and_spliced_in_place
    (original : bytes) (allSpans : list Span) (g : Z) (tm : TokenMap) :
  exists applied,
    appliedSpans original allSpans = Some applied
    /\ redactSpans original allSpans g tm = redactLoop applied original g tm
    /\ (forall arrival s,
          runClassifiers arrival original (classifiers s) = allSpans ->
          redactText arrival s original g tm = redactLoop applied original g tm)
    /\ (forall i j a b, i <> j -> applied !! i = Some a -> applied !! j = Some b ->
          disjointSpans a b)
    /\ (exists r, redactLoop applied original g tm = Some r)
    /\ (forall done sp rest, applied = done ++ sp :: rest ->
          exists text g1 tm1 matched,
            redactLoop done original g tm = Some (text, g1, tm1)
            /\ take (Z.to_nat (End sp)) text = take (Z.to_nat (End sp)) original
            /\ slice original (Start sp) (End sp) = Some matched
            /\ slice text (Start sp) (End sp) = Some matched
            /\ redactLoop (done ++ [sp]) original g tm =
               Some (take (Z.to_nat (Start sp)) original
                       ++ (register g1 tm1 matched).1.1
                       ++ drop (Z.to_nat (End sp)) text,
                     (register g1 tm1 matched).1.2,
                     (register g1 tm1 matched).2)).
Proof.
  destruct (appliedSpans_chain original allSpans) as (applied & Happ & Hs & Hok).
  assert (Hredact : redactSpans original allSpans g tm
                    = redactLoop applied original g tm).
  { unfold redactSpans. rewrite Happ. simpl.
    destruct (decide (length allSpans = 0%nat)) as [Hz|]; [|reflexivity].
    destruct allSpans; [|discriminate]. vm_compute in Happ.
    inversion Happ. reflexivity. }
  exists applied. split; [exact Happ|]. split; [exact Hredact|].
  split; [|split; [|split]].
  - intros arrival s Hrun. unfold redactText. rewrite Hrun. exact Hredact.
  - intros i j a b Hij Ha Hb. unfold disjointSpans.
    destruct (Nat.lt_ge_cases i j) as [Hlt|Hge].
    + right. apply (StronglySorted_lookup leftOf applied i j a b Hs Hlt Ha Hb).
    + left. apply (StronglySorted_lookup leftOf applied j i b a Hs); [lia|auto|auto].
  - destruct (redactLoop_chain applied original g tm (Z.of_nat (length original)))
      as (t & g' & tm' & Hrun & _); [exact Hs | | lia | eauto].
    eapply Forall_impl; [exact Hok|]. simpl. intros; lia.
  - intros done sp rest ->.
    apply StronglySorted_app in Hs. destruct Hs as (Hcross & Hdone & _).
    apply Forall_app in Hok. destruct Hok as [Hokd Hoks].
    apply Forall_cons in Hoks. destruct Hoks as [(Hsp & HspE) _].
    destruct (redactLoop_chain done original g tm (Z.of_nat (length original)))
      as (text & g1 & tm1 & Hrun & Hstable); [exact Hdone | | lia |].
    { eapply Forall_impl; [exact Hokd|]. simpl. intros; lia. }
    assert (Htake : take (Z.to_nat (End sp)) text = take (Z.to_nat (End sp)) original).
    { apply Hstable; [lia|]. apply Forall_forall. intros d Hd.
      apply (Hcross d sp Hd). left. }
    assert (Hlen : End sp <= Z.of_nat (length text)).
    { apply (f_equal length) in Htake. rewrite !length_take in Htake. lia. }
    exists text, g1, tm1, (drop (Z.to_nat (Start sp)) (take (Z.to_nat (End sp)) original)).
    split; [exact Hrun|]. split; [exact Htake|].
    split; [apply slice_as_drop_take; lia|].
    split; [rewrite slice_as_drop_take by lia; rewrite Htake; reflexivity|].
    rewrite redactLoop_app, Hrun, redactLoop_cons by lia. rewrite Htake.
    assert (Hpre : take (Z.to_nat (Start sp)) text = take (Z.to_nat (Start sp)) original).
    { apply Hstable; [lia|]. apply Forall_forall. intros d Hd.
      pose proof (Hcross d sp Hd ltac:(left)) as Hl. unfold leftOf in Hl. lia. }
    destruct (register g1 tm1 _) as [[tok g2] tm2]. simpl.
    rewrite Hpre. reflexivity.
Qed.

(** The specification's first two scenarios. *)
Lemma scenario_basic_redaction :
  redactText Messages.allArrive
    (NewWithClassifiers [Messages.flags LLM (B "LLM") (B "sk-abc123")])
    (B "my key is sk-abc123") 0 newTokenMap
  = Some (B "my key is «TOKEN_000001»", 1, (register 0 newTokenMap (B "sk-abc123")).2).
Proof. vm_compute. reflexivity. Qed.

Lemma scenario_partial_match_rejected :
  redactText Messages.allArrive
    (NewWithClassifiers [Messages.flags LLM (B "LLM") (B "sd@x.com")])
    (B "asd@x.com") 0 newTokenMap
  = Some (B "asd@x.com", 0, newTokenMap).
Proof. vm_compute. reflexivity. Qed.

End Redaction.

(** ** The streaming restorer *)

Section StreamingRestorer.

Import Sanitize Stream.

(** C1: the code emits a partial placeholder.  Upstream sends the two
    frames of the specification's scenario, «hello «TOKEN_0000» and «01»!».
    The first frame is no longer than the holdback, so [Read] buffers it and
    calls itself, and the drain branch hands the buffer to the caller as it
    is: the first write ends with «TOKEN_0000, a proper prefix of the
    registered placeholder «TOKEN_000001» whose remainder is still to come. *)
Theorem restoring_reader_emits_partial_placeholder :
  exists r r',
    NewRestoringReader [B "hello «TOKEN_0000"; B "01»!"] keyMap = inr r
    /\ Read 2 r 4096 = Some ((B "hello «TOKEN_0000", None), r')
    /\ buf r' = [] /\ src r' = [B "01»!"]
    /\ fromToken keyMap !! B "«TOKEN_000001»" = Some (B "sk-abc123")
    /\ endsWithPartial (B "hello «TOKEN_0000") (B "«TOKEN_000001»").
Proof.
  eexists. eexists. split; [vm_compute; reflexivity|].
  split; [vm_compute; reflexivity|].
  split; [reflexivity|]. split; [reflexivity|].
  split; [vm_compute; reflexivity|].
  exists (B "hello "), (B "«TOKEN_0000"), (B "01»").
  repeat split; discriminate.
Qed.

(** C2: on the same input the concatenated writes differ from the buffered
    restoration: the client receives the placeholder, not the original. *)
Theorem restoring_reader_differs_from_buffered_restoration :
  exists r writes,
    NewRestoringReader [B "hello «TOKEN_0000"; B "01»!"] keyMap = inr r
    /\ streamWrites 4 r 4096 = Some writes
    /\ concat writes = B "hello «TOKEN_000001»!"
    /\ RestoreBytes (concat [B "hello «TOKEN_0000"; B "01»!"]) keyMap
       = B "hello sk-abc123!"
    /\ concat writes <> RestoreBytes (concat [B "hello «TOKEN_0000"; B "01»!"]) keyMap.
Proof.
  eexists. eexists. split; [vm_compute; reflexivity|].
  split; [vm_compute; reflexivity|].
  split; [vm_compute; reflexivity|].
  split; [vm_compute; reflexivity|].
  vm_compute. discriminate.
Qed.

(** The held-back tail of a long frame is drained by the next [Read]
    without restoration as well: a placeholder that lies whole in one frame,
    within its last twenty bytes, reaches the client unrestored. *)
Lemma holdback_is_never_restored :
  exists r writes,
    NewRestoringReader [B "a long frame that ends with «TOKEN_000001» ok"] keyMap = inr r
    /\ streamWrites 4 r 4096 = Some writes
    /\ concat writes = B "a long frame that ends with «TOKEN_000001» ok".
Proof.
  eexists. eexists. split; [vm_compute; reflexivity|].
  split; vm_compute; reflexivity.
Qed.

End StreamingRestorer.

(** ** The upstream dispatcher *)

Section Dispatcher.

Import Upstream.
Local Open Scope Z_scope.

Lemma pickEndpointExcluding_fresh c exclude d ep :
  pickEndpointExcluding c exclude d = Some ep ->
  ep ∈ endpoints c
  /\ (Address ep ∉ exclude \/ forall e, e ∈ endpoints c -> Address e ∈ exclude).
Proof.
  unfold pickEndpointExcluding.
  destruct (decide (length (endpoints c) = 0%nat)) as [|Hne]; [discriminate|].
  set (cands := List.filter _ _).
  destruct (decide (length cands = 0%nat)) as [Hz|Hnz]; intros Hpick.
  - split; [eapply list_elem_of_lookup_2; exact Hpick|]. right.
    intros e He. destruct (decide (Address e ∈ exclude)) as [|Hno]; [assumption|].
    exfalso. assert (Hin : In e cands).
    { apply filter_In. split; [apply list_elem_of_In; exact He|].
      apply bool_decide_eq_true. exact Hno. }
    destruct cands; [contradiction | discriminate].
  - apply list_elem_of_lookup_2 in Hpick. apply list_elem_of_In in Hpick.
    apply filter_In in Hpick. destruct Hpick as [Hin Hfresh].
    apply bool_decide_eq_true in Hfresh.
    split; [apply list_elem_of_In; exact Hin | left; exact Hfresh].
Qed.

(** The loop: at most [n] attempts; a response ends the loop and is what
    is returned; every attempt before the last failed in transport. *)
Lemma doLoop_spec draws transport c n attempt tried lastErr p reply log p' :
  doLoop draws transport c n attempt tried lastErr p = (reply, log, p') ->
  (length log <= n)%nat
  /\ Forall (freshIfPossible c) log
  /\ (forall k a status body readErr,
        log !! k = Some a -> outcome a = HTTPResponse status body readErr ->
        S k = length log
        /\ reply = {| replyBody := Some body; replyStatus := status;
                      replyErr := readErr |})
  /\ (forall k a, log !! k = Some a -> S k < length log ->
        exists err, outcome a = TransportError err)%nat.
Proof.
  revert attempt tried lastErr p reply log p'.
  induction n as [|n IH]; intros attempt tried lastErr p reply log p' H;
    cbn [doLoop] in H.
  - inversion H; subst. split; [simpl; lia|]. split; [constructor|].
    split; intros k a; rewrite lookup_nil; discriminate.
  - destruct (pickEndpointExcluding c tried (draws attempt)) as [ep|] eqn:Hpick.
    2:{ inversion H; subst. split; [simpl; lia|]. split; [constructor|].
        split; intros k a; rewrite lookup_nil; discriminate. }
    apply pickEndpointExcluding_fresh in Hpick.
    destruct (Next p) as [w p1].
    destruct (transport attempt ep w) as [err|status body readErr] eqn:Hout.
    + destruct (doLoop draws transport c n (S attempt) ({[Address ep]} ∪ tried)
                  (Some err) p1) as [[reply1 log1] p2] eqn:Hrec.
      injection H as <- <- <-.
      apply IH in Hrec. destruct Hrec as (Hlen & Hfresh & Hresp & Hfail).
      split; [simpl; lia|]. split; [constructor; [exact Hpick | exact Hfresh]|].
      split.
      * intros k a st b re Hk Ha. destruct k as [|k]; simpl in Hk.
        -- inversion Hk; subst a. simpl in Ha. discriminate.
        -- destruct (Hresp k a st b re Hk Ha) as [Hlast Hr].
           split; [simpl; lia | exact Hr].
      * intros k a Hk Hlt. destruct k as [|k]; simpl in Hk.
        -- inversion Hk; subst a. simpl. eauto.
        -- apply (Hfail k a Hk). simpl in Hlt. lia.
    + injection H as <- <- <-.
      split; [simpl; lia|]. split; [constructor; [exact Hpick | constructor]|]. split.
      * intros k a st b re Hk Ha. destruct k as [|k]; simpl in Hk;
          [|rewrite lookup_nil in Hk; discriminate].
        inversion Hk; subst a. simpl in Ha. inversion Ha; subst.
        split; reflexivity.
      * intros k a Hk Hlt. simpl in Hlt. lia.
Qed.

(** The calls the loop made, one by one: each pick excluded the addresses
    tried so far, was drawn by [pickEndpointExcluding], and the call went to
    the endpoint picked. *)
Lemma doLoop_log draws transport c n attempt tried lastErr p reply log p' :
  doLoop draws transport c n attempt tried lastErr p = (reply, log, p') ->
  forall k a, log !! k = Some a ->
    excluded a = tried ∪ triedBefore log k
    /\ pickEndpointExcluding c (excluded a) (draws (attempt + k)%nat) = Some (picked a)
    /\ outcome a = transport (attempt + k)%nat (picked a) (wallet a).
Proof.
  revert attempt tried lastErr p reply log p'.
  induction n as [|n IH]; intros attempt tried lastErr p reply log p' H k a Hk;
    cbn [doLoop] in H.
  - inversion H; subst. rewrite lookup_nil in Hk. discriminate.
  - destruct (pickEndpointExcluding c tried (draws attempt)) as [ep|] eqn:Hpick.
    2:{ inversion H; subst. rewrite lookup_nil in Hk. discriminate. }
    destruct (Next p) as [w p1].
    destruct (transport attempt ep w) as [err|status body readErr] eqn:Hout.
    + destruct (doLoop draws transport c n (S attempt) ({[Address ep]} ∪ tried)
                  (Some err) p1) as [[reply1 log1] p2] eqn:Hrec.
      injection H as <- <- <-.
      destruct k as [|k]; simpl in Hk.
      * inversion Hk; subst a. simpl. rewrite Nat.add_0_r.
        split; [unfold triedBefore; simpl; rewrite (right_id_L ∅ (∪)); reflexivity|].
        split; [exact Hpick | symmetry; exact Hout].
      * destruct (IH _ _ _ _ _ _ _ Hrec k a Hk) as (Hex & Hp & Ho).
        replace (attempt + S k)%nat with (S attempt + k)%nat by lia.
        split; [|split; [exact Hp | exact Ho]].
        rewrite Hex. unfold triedBefore. simpl.
        rewrite (comm_L (∪) {[Address ep]} tried), <- (assoc_L (∪)). reflexivity.
    + injection H as <- <- <-.
      destruct k as [|k]; simpl in Hk; [|rewrite lookup_nil in Hk; discriminate].
      inversion Hk; subst a. simpl. rewrite Nat.add_0_r.
      split; [unfold triedBefore; simpl; rewrite (right_id_L ∅ (∪)); reflexivity|].
        split; [exact Hpick | symmetry; exact Hout].
Qed.


(** C8, as stated, fails: with a single endpoint whose connections are
    refused, [Do] makes three attempts, and the second and third go to the
    endpoint that is already in the tried set (once every endpoint is
    excluded the pick falls back to any endpoint). *)
Lemma retry_falls_back_to_tried_endpoint :
  exists log,
    (Do (fun _ => 0%nat) (fun _ _ _ => TransportError (B "refused")) loneClient).1.2 = log
    /\ length log = 3%nat
    /\ ~ allFresh log.
Proof.
  eexists. split; [reflexivity|]. split; [reflexivity|].
  intros Hfresh.
  set (e1 := {| URL := B "http://e1/v1"; Address := B "gonka1e1" |}).
  apply (Hfresh {| picked := e1; excluded := {[B "gonka1e1"]} ∪ ∅; wallet := 0%nat;
                   outcome := TransportError (B "refused") |}).
  - vm_compute. right. left.
  - simpl. set_solver.
Qed.

(** C8 (amended): [Client.Do] makes at most 3 attempts; the attempt of
    index [k] is the call [doWith] made for the endpoint that
    [pickEndpointExcluding] drew with the addresses of the endpoints of the
    attempts before it excluded: one of the client's endpoints, and one
    whose address has not been tried in this call whenever such an endpoint
    exists (otherwise any endpoint); an attempt that yields an HTTP
    response, whatever its status, is the last one, and [Do] returns that
    response's body and status (with the error of reading the body, if
    any); every attempt followed by another one ended in a transport
    error. *)
Theorem Do_retries_only_after_transport_errors
    (draws : nat -> nat) (transport : nat -> Endpoint -> nat -> Outcome) (c : Client) :
  let '(reply, log, _) := Do draws transport c in
  (length log <= 3)%nat
  /\ (forall k a, log !! k = Some a ->
        excluded a = triedBefore log k
        /\ pickEndpointExcluding c (triedBefore log k) (draws k) = Some (picked a)
        /\ outcome a = transport k (picked a) (wallet a)
        /\ picked a ∈ endpoints c
        /\ (Address (picked a) ∉ triedBefore log k
            \/ forall ep, ep ∈ endpoints c -> Address ep ∈ triedBefore log k))
  /\ Forall (freshIfPossible c) log
  /\ (forall k a status body readErr,
        log !! k = Some a -> outcome a = HTTPResponse status body readErr ->
        S k = length log
        /\ reply = {| replyBody := Some body; replyStatus := status;
                      replyErr := readErr |})
  /\ (forall k a, log !! k = Some a -> S k < length log ->
        exists err, outcome a = TransportError err)%nat.
Proof.
  destruct (Do draws transport c) as [[reply log] p'] eqn:H.
  unfold Do in H. pose proof (doLoop_log _ _ _ _ _ _ _ _ _ _ _ H) as Hlog.
  apply doLoop_spec in H. destruct H as (Hlen & Hfresh & Hresp & Hfail).
  split; [exact Hlen|]. split; [|split; [exact Hfresh | split; [exact Hresp | exact Hfail]]].
  intros k a Hk. destruct (Hlog k a Hk) as (Hex & Hpick & Hout).
  rewrite (left_id_L ∅ (∪)) in Hex. simpl in Hpick, Hout. rewrite Hex in Hpick.
  split; [exact Hex|]. split; [exact Hpick|]. split; [exact Hout|].
  exact (pickEndpointExcluding_fresh _ _ _ _ Hpick).
Qed.

End Dispatcher.

(** ** The signer *)

Section SignerFacts.

Import Crypto Signer.
Local Open Scope Z_scope.

(** *** The library models on published test vectors *)

Lemma roundConstants_ends :
  nth 0 roundConstants 0 = 0x428a2f98 /\ nth 63 roundConstants 0 = 0xc67178f2.
Proof. split; reflexivity. Qed.

Lemma sha256_abc :
  hexEncode (sha256 (B "abc"))
  = B "ba7816bf8f01cfea414140de5dae2223b00361a396177a9cb410ff61f20015ad".
Proof. vm_compute. reflexivity. Qed.

Lemma sha256_two_blocks :
  hexEncode (sha256 (B "abcdbcdecdefdefgefghfghighijhijkijkljklmklmnlmnomnopnopq"))
  = B "248d6a61d20638b8e5c026930c3e6039a33ce45964ff2167f6ecedd419db06c1".
Proof. vm_compute. reflexivity. Qed.

Lemma hmacSHA256_quick_brown_fox :
  hexEncode (hmacSHA256 (B "key") (B "The quick brown fox jumps over the lazy dog"))
  = B "f7bc83f430538424b13298e6aa6fb143ef4d59a14946175997479dbc2d1a3cd8".
Proof. vm_compute. reflexivity. Qed.

Lemma base64Encode_padding :
  base64Encode (B "hello") = B "aGVsbG8="
  /\ base64Encode (B "hello!") = B "aGVsbG8h"
  /\ base64Encode (B "hell") = B "aGVsbA==".
Proof. split; [reflexivity|]. split; reflexivity. Qed.

(** The base point lies on the curve y^2 = x^3 + 7, and doubling it gives
    the published point. *)
Lemma basePoint_on_curve :
  (baseY * baseY - (baseX * baseX * baseX + 7)) mod fieldP = 0
  /\ hexEncode (beBytes 32 (fst (ScalarBaseMult (bigBytes 2))))
     = B "c6047f9441ed7d6d3045406e95c07cd85c778e4b8cef3ca7abac09b95c709ee5".
Proof. split; vm_compute; reflexivity. Qed.

(** *** Big-endian encodings *)

Lemma beBytes_length n x : length (beBytes n x) = n.
Proof.
  revert x. induction n as [|n IH]; intros x; [reflexivity|].
  simpl. rewrite length_app, IH. simpl. lia.
Qed.

Lemma beValue_snoc l c : beValue (l ++ [c]) = beValue l * 256 + byteZ c.
Proof. unfold beValue. rewrite foldl_app. reflexivity. Qed.

(** [beBytes n x] denotes [x] modulo [256^n]. *)
Lemma beValue_beBytes n x : beValue (beBytes n x) = x mod 256 ^ Z.of_nat n.
Proof.
  revert x. induction n as [|n IH]; intros x.
  - simpl. rewrite Z.mod_1_r. reflexivity.
  - simpl beBytes. rewrite beValue_snoc, IH, byteZ_byteOfZ
      by (apply Z.mod_pos_bound; lia).
    rewrite Nat2Z.inj_succ, Z.pow_succ_r by lia.
    rewrite (Z.rem_mul_r x 256 (256 ^ Z.of_nat n)) by lia. lia.
Qed.

Lemma beBytes_zero k : beBytes k 0 = replicate k x00.
Proof.
  induction k as [|k IH]; [reflexivity|].
  simpl beBytes. rewrite Z.div_0_l, IH by lia.
  change (byteOfZ (0 mod 256)) with x00.
  clear IH. induction k as [|k IH]; [reflexivity|]. simpl. f_equal. exact IH.
Qed.

Lemma beBytes_pad k n x :
  0 <= x < 256 ^ Z.of_nat n ->
  beBytes (k + n) x = replicate k x00 ++ beBytes n x.
Proof.
  revert x. induction n as [|n IH]; intros x Hx.
  - simpl in Hx. assert (x = 0) by lia. subst x.
    rewrite Nat.add_0_r, beBytes_zero. simpl. rewrite app_nil_r. reflexivity.
  - rewrite Nat.add_succ_r. simpl beBytes. rewrite IH, app_assoc; [reflexivity|].
    rewrite Nat2Z.inj_succ, Z.pow_succ_r in Hx by lia.
    split; [apply Z.div_pos; lia | apply Z.div_lt_upper_bound; lia].
Qed.

Lemma byteLen_bound x :
  0 <= x < 2 ^ 256 -> (byteLen x <= 32)%nat /\ x < 256 ^ Z.of_nat (byteLen x).
Proof.
  intros Hx. unfold byteLen. destruct (x <=? 0) eqn:E.
  - apply Z.leb_le in E. split; [lia | simpl; lia].
  - apply Z.leb_gt in E.
    assert (Hlog : 0 <= Z.log2 x < 256).
    { split; [apply Z.log2_nonneg | apply Z.log2_lt_pow2; lia]. }
    pose proof (Z.div_mod (Z.log2 x) 8 ltac:(lia)) as Hdm.
    pose proof (Z.mod_pos_bound (Z.log2 x) 8 ltac:(lia)) as Hm.
    split; [lia|].
    rewrite Z2Nat.id by lia.
    change 256 with (2 ^ 8). rewrite <- Z.pow_mul_r by lia.
    apply Z.log2_lt_pow2; lia.
Qed.

(** [x.Bytes()] copied to the end of 32 zero bytes is the 32-byte
    big-endian encoding of [x]. *)
Lemma bigBytes_pad32 x :
  0 <= x < 2 ^ 256 ->
  (length (bigBytes x) <= 32)%nat
  /\ replicate (32 - length (bigBytes x)) x00 ++ bigBytes x = beBytes 32 x.
Proof.
  intros Hx. unfold bigBytes. rewrite Z.abs_eq by lia.
  rewrite beBytes_length. destruct (byteLen_bound x Hx) as [Hlen Hlt].
  split; [exact Hlen|]. rewrite <- beBytes_pad by lia. f_equal. lia.
Qed.

Lemma copyInto_window pre post src (w : nat) :
  (length src <= w)%nat ->
  copyInto (pre ++ replicate w x00 ++ post)
           (Z.of_nat (length pre + w) - Z.of_nat (length src))
           (Z.of_nat (length pre + w)) src
  = Some (pre ++ replicate (w - length src) x00 ++ src ++ post).
Proof.
  intros Hlen. unfold copyInto.
  rewrite slice_in_range
    by (rewrite ?length_app, ?length_replicate; lia).
  simpl.
  set (out := pre ++ replicate w x00 ++ post).
  set (lo := Z.to_nat (Z.of_nat (length pre + w) - Z.of_nat (length src))).
  assert (Hlo : lo = (length pre + (w - length src))%nat) by (unfold lo; lia).
  assert (Hout : out = (pre ++ replicate (w - length src) x00)
                       ++ replicate (length src) x00 ++ post).
  { unfold out. rewrite <- !app_assoc. f_equal.
    rewrite (app_assoc (replicate _ _)), <- replicate_add.
    replace (w - length src + length src)%nat with w by lia. reflexivity. }
  assert (Hhead : length (pre ++ replicate (w - length src) x00) = lo).
  { rewrite length_app, length_replicate. lia. }
  replace (Z.to_nat (Z.of_nat (length pre + w)) - lo)%nat with (length src)
    by lia.
  assert (Hdst : length (take (length src) (drop lo out)) = length src).
  { rewrite length_take, length_drop. unfold out.
    rewrite !length_app, length_replicate. lia. }
  rewrite Hdst, Nat.min_id, firstn_all. f_equal.
  assert (Htake : take lo out = pre ++ replicate (w - length src) x00).
  { rewrite Hout, <- Hhead. apply take_app_length. }
  assert (Hdrop : drop (lo + length src) out = post).
  { rewrite Hout, app_assoc.
    replace (lo + length src)%nat
      with (length ((pre ++ replicate (w - length src) x00)
                    ++ replicate (length src) x00))
      by (rewrite length_app, Hhead, length_replicate; reflexivity).
    apply drop_app_length. }
  rewrite Htake, Hdrop, <- !app_assoc. reflexivity.
Qed.

(** *** More fuel does not change the nonce *)

Lemma fillT_more fuel fuel' kk v t qlen r :
  fillT fuel kk v t qlen = Some r -> (fuel <= fuel')%nat ->
  fillT fuel' kk v t qlen = Some r.
Proof.
  revert fuel' v t. induction fuel as [|fuel IH]; intros fuel' v t H Hle;
    [discriminate|].
  destruct fuel' as [|fuel']; [lia|]. simpl in *.
  destruct (Z.of_nat (length t) * 8 <? qlen); [|exact H].
  apply IH; [exact H | lia].
Qed.

Lemma nonceLoop_more fuel fuel' N qlen kk v k :
  nonceLoop fuel N qlen kk v = Some k -> (fuel <= fuel')%nat ->
  nonceLoop fuel' N qlen kk v = Some k.
Proof.
  revert fuel' kk v. induction fuel as [|fuel IH]; intros fuel' kk v H Hle;
    [discriminate|].
  destruct fuel' as [|fuel']; [lia|].
  cbn [nonceLoop] in *.
  destruct (fillT (S fuel) kk v [] qlen) as [[v1 t]|] eqn:E; [|discriminate].
  rewrite (fillT_more _ (S fuel') _ _ _ _ _ E) by lia. simpl in *.
  destruct ((0 <? bits2int t qlen) && (bits2int t qlen <? N)); [exact H|].
  apply IH; [exact H | lia].
Qed.

Lemma generateRFC6979K_agree fuel fuel' N d hash k k' :
  generateRFC6979K fuel N d hash = Some k ->
  generateRFC6979K fuel' N d hash = Some k' -> k = k'.
Proof.
  unfold generateRFC6979K. intros H H'.
  destruct (Nat.le_ge_cases fuel fuel') as [Hle|Hle].
  - rewrite (nonceLoop_more _ _ _ _ _ _ _ H Hle) in H'. congruence.
  - rewrite (nonceLoop_more _ _ _ _ _ _ _ H' Hle) in H. congruence.
Qed.

(** *** The rounds of the nonce loop *)

Lemma sha256_length msg : length (sha256 msg) = 32%nat.
Proof.
  unfold sha256.
  destruct (compressBlocks _ _ _) as [[[[[[[a b] c] d] e] f] g] h].
  rewrite !length_app, !beBytes_length. reflexivity.
Qed.

Lemma hmacSHA256_length key msg : length (hmacSHA256 key msg) = 32%nat.
Proof. unfold hmacSHA256. apply sha256_length. Qed.

Lemma beValue_bound (b : bytes) : 0 <= beValue b < 256 ^ Z.of_nat (length b).
Proof.
  induction b as [|c b IH] using rev_ind; [change (0 <= 0 < 1); lia|].
  rewrite beValue_snoc, length_app. simpl length.
  replace (Z.of_nat (length b + 1)) with (Z.succ (Z.of_nat (length b))) by lia.
  rewrite Z.pow_succ_r by lia.
  pose proof (byteZ_range c). nia.
Qed.

(** The inner loop of step h runs once for 256 bits. *)
Lemma fillT_256 fuel kk v :
  fillT (S (S fuel)) kk v [] 256 = Some (hmacSHA256 kk v, hmacSHA256 kk v).
Proof.
  cbn [fillT]. change (Z.of_nat (length (@nil byte)) * 8 <? 256) with true. cbv iota.
  rewrite app_nil_l, hmacSHA256_length. reflexivity.
Qed.

Lemma nonceLoop_S fuel N qlen kk v :
  nonceLoop (S fuel) N qlen kk v
  = '(v1, t) ← fillT (S fuel) kk v [] qlen;
    let secret := bits2int t qlen in
    if (0 <? secret) && (secret <? N) then Some secret
    else nonceLoop fuel N qlen (hmacSHA256 kk (v1 ++ [x00]))
           (hmacSHA256 (hmacSHA256 kk (v1 ++ [x00])) v1).
Proof. reflexivity. Qed.

Lemma nonceLoop_step fuel N kk v :
  nonceLoop (S (S fuel)) N 256 kk v
  = let '(c, (kk', v')) := nonceRound (kk, v) in
    if (0 <? c) && (c <? N) then Some c else nonceLoop (S fuel) N 256 kk' v'.
Proof.
  rewrite nonceLoop_S, fillT_256. unfold nonceRound.
  cbn [mbind option_bind]. reflexivity.
Qed.

Lemma nonceLoop_short N kk v fuel : (fuel <= 1)%nat -> nonceLoop fuel N 256 kk v = None.
Proof. intros H. destruct fuel as [|[|fuel]]; [reflexivity | reflexivity | lia]. Qed.

Lemma candidate_range st : 0 <= (nonceRound st).1 < 2 ^ 256.
Proof.
  destruct st as [kk v]. unfold nonceRound. cbn [fst]. unfold bits2int.
  rewrite hmacSHA256_length. change (256 <? Z.of_nat 32 * 8) with false. cbv iota.
  pose proof (beValue_bound (hmacSHA256 kk v)) as H. rewrite hmacSHA256_length in H.
  exact H.
Qed.

(** While the candidates are not suitable the loop goes on. *)
Lemma nonceLoop_running N st n fuel :
  (forall i, (i < n)%nat -> ~ 0 < (nonceRound (roundState st i)).1 < N) ->
  (fuel <= S n)%nat -> nonceLoop fuel N 256 st.1 st.2 = None.
Proof.
  revert st fuel. induction n as [|n IH]; intros [kk v] fuel Hbad Hle.
  - apply nonceLoop_short. lia.
  - destruct fuel as [|[|fuel]]; [reflexivity | reflexivity |].
    cbn [fst snd]. rewrite nonceLoop_step.
    pose proof (Hbad 0%nat ltac:(lia)) as H0. cbn [roundState] in H0.
    destruct (nonceRound (kk, v)) as [c [kk' v']] eqn:E. cbn [fst] in H0.
    destruct ((0 <? c) && (c <? N)) eqn:Ec.
    + apply andb_true_iff in Ec. destruct Ec as [E1 E2]. apply Z.ltb_lt in E1, E2. lia.
    + apply (IH (kk', v')); [|lia]. intros i Hi.
      pose proof (Hbad (S i) ltac:(lia)) as Hs. cbn [roundState] in Hs.
      rewrite E in Hs. exact Hs.
Qed.

(** The loop returns the first suitable candidate. *)
Lemma nonceLoop_first N st j fuel :
  (forall i, (i < j)%nat -> ~ 0 < (nonceRound (roundState st i)).1 < N) ->
  0 < (nonceRound (roundState st j)).1 < N ->
  (j + 2 <= fuel)%nat ->
  nonceLoop fuel N 256 st.1 st.2 = Some (nonceRound (roundState st j)).1.
Proof.
  revert st fuel. induction j as [|j IH]; intros [kk v] fuel Hbad Hgood Hle;
    (destruct fuel as [|[|fuel]]; [lia | lia |]);
    cbn [fst snd]; rewrite nonceLoop_step.
  - cbn [roundState] in Hgood.
    destruct (nonceRound (kk, v)) as [c [kk' v']] eqn:E. cbn [fst] in Hgood.
    assert (Ec : (0 <? c) && (c <? N) = true).
    { apply andb_true_iff. split; apply Z.ltb_lt; lia. }
    rewrite Ec. cbn [roundState]. rewrite E. reflexivity.
  - pose proof (Hbad 0%nat ltac:(lia)) as H0. cbn [roundState] in H0, Hgood |- *.
    destruct (nonceRound (kk, v)) as [c [kk' v']] eqn:E. cbn [fst snd] in *.
    destruct ((0 <? c) && (c <? N)) eqn:Ec.
    + apply andb_true_iff in Ec. destruct Ec as [E1 E2]. apply Z.ltb_lt in E1, E2. lia.
    + apply (IH (kk', v')); [|exact Hgood | lia]. intros i Hi.
      pose proof (Hbad (S i) ltac:(lia)) as Hs. cbn [roundState] in Hs.
      rewrite E in Hs. exact Hs.
Qed.

(** Among the first [n] candidates either none is suitable or there is a
    first suitable one. *)
Lemma first_suitable (c : nat -> Z) (N : Z) (n : nat) :
  (forall i, (i < n)%nat -> ~ 0 < c i < N)
  \/ exists j, (j < n)%nat /\ 0 < c j < N /\ forall i, (i < j)%nat -> ~ 0 < c i < N.
Proof.
  induction n as [|n [IH|(j & Hj & Hg & Hb)]].
  - left. intros i Hi. lia.
  - destruct (decide (0 < c n < N)) as [Hg|Hb].
    + right. exists n. split; [lia|]. split; [exact Hg|]. intros i Hi. apply IH. exact Hi.
    + left. intros i Hi. destruct (decide (i = n)) as [->|Hne]; [exact Hb|].
      apply IH. lia.
  - right. exists j. split; [lia|]. split; [exact Hg | exact Hb].
Qed.

Lemma generateRFC6979K_rounds fuel D hash :
  generateRFC6979K fuel curveN D hash
  = nonceLoop fuel curveN 256 (nonceStart curveN D hash).1 (nonceStart curveN D hash).2.
Proof.
  unfold generateRFC6979K, nonceStart. cbn [fst snd].
  change (bitLen curveN) with 256. reflexivity.
Qed.


(** The group order is within 2^129 of 2^256: a 256-bit candidate that is
    not suitable is zero or has its 127 leading bits set. *)
Lemma curveN_close_to_2_256 : 2 ^ 256 - 2 ^ 129 < curveN < 2 ^ 256.
Proof. split; reflexivity. Qed.

(** Once the nonce is found, what [rfc6979Sign] and [Sign] return. *)
Lemma Sign_of_nonce fuel key payload addr ts k :
  generateRFC6979K fuel curveN (D key) (signingHash payload addr ts) = Some k ->
  let h := signingHash payload addr ts in
  let r := (ScalarBaseMult (bigBytes k)).1 mod curveN in
  let s0 := ((r * D key + beValue h) * ModInverse k curveN) mod curveN in
  let s := if s0 >? curveN / 2 then curveN - s0 else s0 in
  rfc6979Sign fuel key h = Some (r, s0)
  /\ 0 <= r < curveN /\ 0 <= s <= curveN / 2
  /\ Sign fuel key payload addr ts
     = Some (base64Encode (beBytes 32 r ++ beBytes 32 s), ts).
Proof.
  intros Hk h r s0 s.
  assert (Hsig : rfc6979Sign fuel key h = Some (r, s0)).
  { unfold rfc6979Sign. fold h in Hk. rewrite Hk. reflexivity. }
  assert (HN : 0 < curveN) by reflexivity.
  assert (HN256 : curveN < 2 ^ 256) by reflexivity.
  assert (Hr : 0 <= r < curveN) by (apply Z.mod_pos_bound; exact HN).
  assert (Hs0 : 0 <= s0 < curveN) by (apply Z.mod_pos_bound; exact HN).
  assert (Hodd : curveN = 2 * (curveN / 2) + 1) by reflexivity.
  assert (Hs : 0 <= s <= curveN / 2).
  { unfold s. destruct (s0 >? curveN / 2) eqn:E.
    - apply Z.gtb_lt in E. lia.
    - rewrite Z.gtb_ltb in E. apply Z.ltb_ge in E. lia. }
  split; [exact Hsig|]. split; [exact Hr|]. split; [exact Hs|].
  destruct (bigBytes_pad32 r ltac:(lia)) as [Hrl Hrp].
  destruct (bigBytes_pad32 s ltac:(lia)) as [Hsl Hsp].
  assert (C1 : copyInto (replicate 64 x00) (32 - Z.of_nat (length (bigBytes r))) 32
                 (bigBytes r) = Some (beBytes 32 r ++ replicate 32 x00)).
  { rewrite <- Hrp, <- app_assoc.
    exact (copyInto_window [] (replicate 32 x00) (bigBytes r) 32 Hrl). }
  assert (C2 : copyInto (beBytes 32 r ++ replicate 32 x00)
                 (64 - Z.of_nat (length (bigBytes s))) 64 (bigBytes s)
               = Some (beBytes 32 r ++ beBytes 32 s)).
  { rewrite <- Hsp.
    pose proof (copyInto_window (beBytes 32 r) [] (bigBytes s) 32 Hsl) as C.
    rewrite beBytes_length, !app_nil_r in C. exact C. }
  unfold Sign. fold h. rewrite Hsig. cbn [mbind option_bind].
  change (Z.shiftr curveN 1) with (curveN / 2). fold s.
  rewrite C1. cbn [mbind option_bind]. rewrite C2. reflexivity.
Qed.

Lemma Sign_without_nonce fuel key payload addr ts :
  generateRFC6979K fuel curveN (D key) (signingHash payload addr ts) = None ->
  Sign fuel key payload addr ts = None.
Proof. intros Hk. unfold Sign, rfc6979Sign. rewrite Hk. reflexivity. Qed.

(** C7: [Sign] returns exactly when a candidate of the RFC 6979 loop lies
    in [1, n-1], in the round of the first such candidate, and then for a
    fixed key, payload, address and timestamp every run returns the same
    value: the timestamp and the base64 encoding of 64 bytes, the 32-byte
    big-endian [r] followed by the 32-byte big-endian [s], where [r] is the
    x coordinate of [k] times the base point modulo the group order [n],
    [s] is [(r * d + e) / k] modulo [n] as [rfc6979Sign] returns it,
    replaced by [n - s] when it exceeds [n/2], so that [r < n] and
    [s <= n/2].  Every candidate is a 256-bit HMAC-SHA256 output, so a
    round is repeated only when that output is zero or at least [n]; as
    long as no candidate is suitable the loop of the code is still
    running. *)
Theorem Sign_deterministic_low_S_64_bytes
    (key : Signer) (payload addr : bytes) (ts : Z) (rounds : nat) :
  let h := signingHash payload addr ts in
  let cand := candidate curveN (D key) h in
  (forall i, 0 <= cand i < 2 ^ 256)
  /\ (((forall i, (i < rounds)%nat -> cand i = 0 \/ curveN <= cand i)
       /\ forall fuel, (fuel <= S rounds)%nat -> Sign fuel key payload addr ts = None)
      \/ exists j r s,
           let k := cand j in
           let s0 := ((r * D key + beValue h) * ModInverse k curveN) mod curveN in
           (j < rounds)%nat
           /\ 0 < k < curveN
           /\ (forall i, (i < j)%nat -> cand i = 0 \/ curveN <= cand i)
           /\ generateRFC6979K (j + 2) curveN (D key) h = Some k
           /\ rfc6979Sign (j + 2) key h = Some (r, s0)
           /\ r = (ScalarBaseMult (bigBytes k)).1 mod curveN
           /\ s = (if s0 >? curveN / 2 then curveN - s0 else s0)
           /\ 0 <= r < curveN /\ 0 <= s <= curveN / 2
           /\ length (beBytes 32 r ++ beBytes 32 s) = 64%nat
           /\ beValue (beBytes 32 r) = r /\ beValue (beBytes 32 s) = s
           /\ (forall fuel, (fuel < j + 2)%nat -> Sign fuel key payload addr ts = None)
           /\ (forall fuel, (j + 2 <= fuel)%nat ->
                 Sign fuel key payload addr ts
                 = Some (base64Encode (beBytes 32 r ++ beBytes 32 s), ts))
           /\ (forall fuel out, Sign fuel key payload addr ts = Some out ->
                 out = (base64Encode (beBytes 32 r ++ beBytes 32 s), ts))).
Proof.
  intros h cand.
  assert (Hrange : forall i, 0 <= cand i < 2 ^ 256).
  { intros i. unfold cand, candidate. apply candidate_range. }
  assert (Hbad : forall i, ~ 0 < cand i < curveN -> cand i = 0 \/ curveN <= cand i).
  { intros i Hn. pose proof (Hrange i). lia. }
  split; [exact Hrange|].
  set (st := nonceStart curveN (D key) h).
  destruct (first_suitable cand curveN rounds) as [Hnone|(j & Hj & Hgood & Hfirst)].
  - left. split; [intros i Hi; apply Hbad, Hnone, Hi|].
    intros fuel Hle. apply Sign_without_nonce. fold h.
    rewrite generateRFC6979K_rounds. fold st.
    apply (nonceLoop_running curveN st rounds fuel); [|exact Hle].
    intros i Hi. exact (Hnone i Hi).
  - right.
    assert (Hk : forall fuel, (j + 2 <= fuel)%nat ->
               generateRFC6979K fuel curveN (D key) h = Some (cand j)).
    { intros fuel Hle. rewrite generateRFC6979K_rounds. fold st.
      apply (nonceLoop_first curveN st j fuel); [|exact Hgood | exact Hle].
      intros i Hi. exact (Hfirst i Hi). }
    assert (Hearly : forall fuel, (fuel < j + 2)%nat -> Sign fuel key payload addr ts = None).
    { intros fuel Hlt. apply Sign_without_nonce. fold h.
      rewrite generateRFC6979K_rounds. fold st.
      apply (nonceLoop_running curveN st j fuel); [|lia].
      intros i Hi. exact (Hfirst i Hi). }
    set (r := (ScalarBaseMult (bigBytes (cand j))).1 mod curveN).
    set (s0 := ((r * D key + beValue h) * ModInverse (cand j) curveN) mod curveN).
    set (s := if s0 >? curveN / 2 then curveN - s0 else s0).
    assert (Hsign : forall fuel, (j + 2 <= fuel)%nat ->
               rfc6979Sign fuel key h = Some (r, s0)
               /\ 0 <= r < curveN /\ 0 <= s <= curveN / 2
               /\ Sign fuel key payload addr ts
                  = Some (base64Encode (beBytes 32 r ++ beBytes 32 s), ts)).
    { intros fuel Hle. exact (Sign_of_nonce fuel key payload addr ts (cand j) (Hk fuel Hle)). }
    destruct (Hsign (j + 2)%nat ltac:(lia)) as (Hsig & Hr & Hs & _).
    assert (HN256 : curveN < 2 ^ 256) by reflexivity.
    assert (Hhalf : curveN / 2 < 2 ^ 256) by reflexivity.
    exists j, r, s. cbv zeta. fold s0.
    split; [exact Hj|]. split; [exact Hgood|].
    split; [intros i Hi; apply Hbad, Hfirst, Hi|].
    split; [apply Hk; lia|]. split; [exact Hsig|].
    split; [reflexivity|]. split; [reflexivity|].
    split; [exact Hr|]. split; [exact Hs|].
    split; [rewrite length_app, !beBytes_length; reflexivity|].
    split; [rewrite beValue_beBytes; apply Z.mod_small;
            change (256 ^ Z.of_nat 32) with (2 ^ 256); lia|].
    split; [rewrite beValue_beBytes; apply Z.mod_small;
            change (256 ^ Z.of_nat 32) with (2 ^ 256); lia|].
    split; [exact Hearly|].
    split; [intros fuel Hle; apply (Hsign fuel Hle)|].
    intros fuel out Hout.
    destruct (Nat.lt_ge_cases fuel (j + 2)) as [Hlt|Hge].
    + rewrite (Hearly fuel Hlt) in Hout. discriminate.
    + destruct (Hsign fuel Hge) as (_ & _ & _ & HS). rewrite HS in Hout.
      injection Hout as <-. reflexivity.
Qed.


(** The theorem for one request: the candidate of the first round is
    suitable, and [Sign] returns from two units of fuel on. *)
Lemma Sign_witness :
  let key := {| D := 0x1234567890abcdef1234567890abcdef1234567890abcdef1234567890abcdef |} in
  let payload := B "hello" in
  let addr := B "gonka1y2a9p56kv044327uycmqdexl7zs82fs5ryv5le" in
  let ts := 1761883200123456789 in
  let k := 53382487760480834663601067045804972636754376495110460833914431711941638500809 in
  candidate curveN (D key) (signingHash payload addr ts) 0 = k
  /\ exists r s,
       r = (ScalarBaseMult (bigBytes k)).1 mod curveN
       /\ 0 <= r < curveN /\ 0 <= s <= curveN / 2
       /\ length (beBytes 32 r ++ beBytes 32 s) = 64%nat
       /\ forall fuel, (2 <= fuel)%nat ->
            Sign fuel key payload addr ts
            = Some (base64Encode (beBytes 32 r ++ beBytes 32 s), ts).
Proof.
  intros key payload addr ts k.
  assert (Hc : candidate curveN (D key) (signingHash payload addr ts) 0 = k)
    by (vm_compute; reflexivity).
  split; [exact Hc|].
  destruct (Sign_deterministic_low_S_64_bytes key payload addr ts 1)
    as [_ [[Hbad _]|(j & r & s & Hj & _ & _ & _ & _ & Hr & _ & Hrr & Hs & Hlen & _ & _ & _ & Hsign & _)]].
  - exfalso. specialize (Hbad 0%nat (Nat.lt_0_succ 0)). rewrite Hc in Hbad.
    destruct Hbad as [E|E]; [discriminate E | apply E; reflexivity].
  - assert (j = 0%nat) by lia. subst j. rewrite Hc in Hr.
    exists r, s. split; [exact Hr|]. split; [exact Hrr|]. split; [exact Hs|].
    split; [exact Hlen | exact Hsign].
Defined.

(** The same request evaluated in full: the signature is the one an
    independent implementation of the scheme (RFC 6979 nonce, low-S, r and s
    on 32 bytes each, base64) gives for these inputs. *)
Lemma Sign_reference_signature :
  Sign 2 {| D := 0x1234567890abcdef1234567890abcdef1234567890abcdef1234567890abcdef |}
       (B "hello") (B "gonka1y2a9p56kv044327uycmqdexl7zs82fs5ryv5le")
       1761883200123456789
  = Some (B "+1N4b2vGMEjrKUnh7q5tU/7zQ7+pjdzJrIaROuxUVytb9hOfkV2szoL00sIkdcxVPD2QsR0U7hKeiP3zIya8SA==",
          1761883200123456789).
Proof. vm_compute. reflexivity. Qed.

End SignerFacts.

(** ** Message-scope policy and bodies without messages *)

Section MessageScope.

Import Sanitize JSON Messages.
Local Open Scope Z_scope.

Lemma redactTextWithNER_history arrival s text g tm :
  redactTextWithNER arrival s text g tm
  = redactSpans text (runClassifiers arrival text (historyClassifiers (classifiers s))) g tm.
Proof. reflexivity. Qed.

(** With a single classifier configured, history messages run none. *)
Lemma redactTextWithNER_single_classifier arrival c text g tm :
  redactTextWithNER arrival (NewWithClassifiers [c]) text g tm = Some (text, g, tm).
Proof. reflexivity. Qed.

(** For the lists [main] builds, the history path runs the non-LLM
    classifiers in every configuration but one: NER on, LLM off. *)
Lemma historyClassifiers_of_main sanitizeNER sanitizeLLM nerClient llmClient :
  kind nerClient = NER -> kind llmClient = LLM ->
  historyClassifiers (mainClassifiers sanitizeNER sanitizeLLM nerClient llmClient)
  = if sanitizeNER && negb sanitizeLLM then []
    else nonLLM (mainClassifiers sanitizeNER sanitizeLLM nerClient llmClient).
Proof.
  intros Hn Hl. unfold nonLLM.
  destruct sanitizeNER, sanitizeLLM; simpl; rewrite ?Hn, ?Hl; reflexivity.
Qed.

(** C3: the code drops the last classifier of the list whatever it is.
    With the NER sidecar enabled and the LLM disabled (the configuration the
    documentation recommends for speed), the list is the NER client alone,
    and history messages run no classifier at all: the name in the first
    message, which the NER client flags and [redactText] would replace, is
    forwarded as it is. *)
Theorem NER_only_configuration_leaves_history_unredacted
    (MarshalString : bytes -> bytes) (MarshalMaps : list RawMap -> bytes)
    (MarshalMap : RawMap -> option bytes) :
  let ner := flags NER (B "PER") (B "Alice") in
  let llm := flags LLM (B "LLM") (B "sk-abc123") in
  let s := NewWithClassifiers (mainClassifiers true false ner llm) in
  let body :=
    Q "{'messages':[{'role':'user','content':'I am Alice'},{'role':'assistant','content':'hi'},{'role':'user','content':'bye'}]}" in
  classifiers s = [ner]
  /\ nonLLM (classifiers s) = [ner]
  /\ historyClassifiers (classifiers s) = []
  /\ redactText allArrive s (B "I am Alice") 0 newTokenMap
     = Some (B "I am «TOKEN_000001»", 1, (register 0 newTokenMap (B "Alice")).2)
  /\ redactTextWithNER allArrive s (B "I am Alice") 0 newTokenMap
     = Some (B "I am Alice", 0, newTokenMap)
  /\ RedactMessages allArrive MarshalString MarshalMaps MarshalMap s body 0
     = Some (body, 0, newTokenMap).
Proof.
  intros ner llm s body. subst ner llm s body.
  split; [reflexivity|]. split; [reflexivity|]. split; [reflexivity|].
  split; [vm_compute; reflexivity|]. split; vm_compute; reflexivity.
Qed.

Lemma mapOfMembers_lookup_None (members : list (bytes * bytes))
    (m0 : gmap bytes bytes) (key : bytes) :
  foldl (fun m '(k, v) => <[k := v]> m) m0 members !! key = None
  <-> m0 !! key = None /\ key ∉ members.*1.
Proof.
  revert m0. induction members as [|[k v] members IH]; intros m0; simpl.
  - split; [intros H; split; [exact H | apply not_elem_of_nil] | intros [H _]; exact H].
  - rewrite IH, not_elem_of_cons. destruct (decide (k = key)) as [->|Hne].
    + rewrite lookup_insert_eq. split; [intros [H _]; discriminate | intros [_ [H _]]; congruence].
    + rewrite lookup_insert_ne by exact Hne. split.
      * intros [H1 H2]. split; [exact H1 | split; [congruence | exact H2]].
      * intros [H1 [_ H2]]. auto.
Qed.

(** Brackets opened one inside the other beyond the limit are refused,
    whatever follows them. *)
Lemma scanValue_beyond_max_depth (k : nat) (fuel : nat) (depth : Z) (rest : bytes) :
  maxNestingDepth <= depth + Z.of_nat k ->
  scanValue fuel depth (replicate (S k) "["%byte ++ rest) = None.
Proof.
  revert fuel depth. induction k as [|k IH]; intros fuel depth Hdeep;
    (destruct fuel as [|f]; [reflexivity|]).
  - cbn [replicate app scanValue skipWS]. change (isSpace "[") with false. cbv iota.
    destruct (decide ("["%byte = "{"%byte)) as [E|_]; [discriminate E|].
    destruct (decide ("["%byte = "["%byte)) as [_|E]; [|contradiction].
    destruct (maxNestingDepth <=? depth) eqn:E; [reflexivity|].
    apply Z.leb_gt in E. lia.
  - cbn [replicate app scanValue skipWS]. change (isSpace "[") with false. cbv iota.
    destruct (decide ("["%byte = "{"%byte)) as [E|_]; [discriminate E|].
    destruct (decide ("["%byte = "["%byte)) as [_|E]; [|contradiction].
    destruct (maxNestingDepth <=? depth) eqn:E; [reflexivity|].
    destruct (decide ("["%byte = "]"%byte)) as [E'|_]; [discriminate E'|].
    destruct f as [|f']; [reflexivity|].
    cbn [scanElements].
    change ("["%byte :: replicate k "["%byte ++ rest)
      with (replicate (S k) "["%byte ++ rest).
    rewrite IH by lia. reflexivity.
Qed.

(** A body whose first member holds arrays nested 10000 deep or more has
    more than 10000 values open at once: it is not valid for the decoder. *)
Lemma Valid_rejects_nesting_beyond_the_limit (k : nat) (rest : bytes) :
  maxNestingDepth <= Z.of_nat k ->
  Valid (Q "{'a':" ++ replicate k "["%byte ++ rest) = false
  /\ decode (Q "{'a':" ++ replicate k "["%byte ++ rest) = None
  /\ UnmarshalMap (Q "{'a':" ++ replicate k "["%byte ++ rest) = None.
Proof.
  intros Hk.
  assert (Hv : Valid (Q "{'a':" ++ replicate k "["%byte ++ rest) = false).
  { unfold Valid. destruct k as [|k]; [unfold maxNestingDepth in Hk; lia|].
    remember (replicate (S k) "["%byte ++ rest) as deep eqn:Hdeep.
    change (Q "{'a':" ++ deep)
      with ("{"%byte :: x22 :: "a"%byte :: x22 :: ":"%byte :: deep).
    generalize (fuelFor ("{"%byte :: x22 :: "a"%byte :: x22 :: ":"%byte :: deep)).
    intros fuel. destruct fuel as [|[|f]]; try reflexivity.
    simpl. subst deep. rewrite scanValue_beyond_max_depth; [reflexivity|]. lia. }
  split; [exact Hv|]. unfold UnmarshalMap, decode. rewrite Hv. split; reflexivity.
Qed.

(** The limit is 10000 values open at once: that many arrays one inside
    the other are valid, one more is not. *)
Lemma Valid_at_the_limit :
  Valid (replicate (Z.to_nat maxNestingDepth) "["%byte
         ++ replicate (Z.to_nat maxNestingDepth) "]"%byte) = true
  /\ Valid (replicate (Z.to_nat maxNestingDepth + 1) "["%byte
            ++ replicate (Z.to_nat maxNestingDepth + 1) "]"%byte) = false.
Proof. split; vm_compute; reflexivity. Qed.

(** C10, as stated, fails: a body that is valid JSON and has no messages
    member, but is an array, does not decode into the request map; it is
    redacted as raw text like a body that is not JSON, and the TokenMap is
    not empty. *)
Lemma valid_JSON_array_body_is_redacted :
  let s := NewWithClassifiers [flags NER (B "PER") (B "Alice")] in
  let body := Q "['Alice']" in
  Valid body = true
  /\ noMessagesKey body
  /\ RedactMessages allArrive quoteString writeMaps (fun m => Some (writeMap m)) s body 0
     = Some (Q "['«TOKEN_000001»']", 1, (register 0 newTokenMap (B "Alice")).2)
  /\ Q "['«TOKEN_000001»']" <> body
  /\ IsEmpty (register 0 newTokenMap (B "Alice")).2 = false.
Proof.
  split; [vm_compute; reflexivity|].
  split; [intros members H; vm_compute in H; discriminate|].
  split; [vm_compute; reflexivity|].
  split; [vm_compute; discriminate | vm_compute; reflexivity].
Qed.

(** C10 (amended): a body that does not decode into the request map,
    because it is not valid JSON for the decoder (this includes a text with
    more than 10000 objects and arrays nested in one another, such as an
    object whose member holds 10000 nested arrays) or because it is valid
    JSON of another kind than an object or null (an array, a string, a
    number, a boolean), is treated as one text and run through [redactText]
    with all classifiers; a body that decodes to a JSON object without a
    member messages, or JSON null, is returned unchanged with an empty
    TokenMap. *)
Theorem RedactMessages_on_bodies_without_messages
    (arrival : bytes -> nat -> list nat)
    (MarshalString : bytes -> bytes) (MarshalMaps : list RawMap -> bytes)
    (MarshalMap : RawMap -> option bytes)
    (s : Sanitizer) (body : bytes) (g : Z) :
  let result := RedactMessages arrival MarshalString MarshalMaps MarshalMap s body g in
  (Valid body = false -> result = redactText arrival s body g newTokenMap)
  /\ (forall d, decode body = Some d ->
        match d with
        | DObject members =>
            B "messages" ∉ members.*1 -> result = Some (body, g, newTokenMap)
        | DNull => result = Some (body, g, newTokenMap)
        | _ => result = redactText arrival s body g newTokenMap
        end)
  /\ (forall k rest, maxNestingDepth <= Z.of_nat k ->
        body = Q "{'a':" ++ replicate k "["%byte ++ rest ->
        result = redactText arrival s body g newTokenMap).
Proof.
  intros result.
  assert (Hinvalid : Valid body = false -> result = redactText arrival s body g newTokenMap).
  { intros Hinv. subst result. unfold RedactMessages, UnmarshalMap, decode.
    rewrite Hinv. reflexivity. }
  split; [exact Hinvalid|]. split.
  - intros d Hd. subst result. unfold RedactMessages, UnmarshalMap.
    rewrite Hd. destruct d; try reflexivity.
    intros Hno. unfold rawLookup, mapOfMembers.
    destruct (mapOfMembers_lookup_None members ∅ (B "messages")) as [_ Hnone].
    rewrite Hnone; [reflexivity|]. split; [apply lookup_empty | exact Hno].
  - intros k rest Hk ->. apply Hinvalid.
    apply (Valid_rejects_nesting_beyond_the_limit k rest Hk).
Qed.

End MessageScope.

(** ** The tool-call simulator *)

Section ToolCalls.

Import JSON Toolsim.
Local Open Scope Z_scope.

Variable toolCallID : nat -> bytes.
Variable MarshalToolCalls : list ToolCallMsg -> bytes.
Variable MarshalMapOrNil : RawMap -> bytes.
Variable MarshalMaps : list RawMap -> bytes.
Variable MarshalMap : RawMap -> option bytes.

Lemma keepValid_declared (validNames : gset bytes) calls c :
  c ∈ keepValid validNames calls ->
  Name c ∈ validNames /\ Arguments c <> [] /\ Arguments c <> B "null".
Proof.
  unfold keepValid. intros Hin. apply list_elem_of_In, in_flat_map in Hin.
  destruct Hin as (c0 & _ & Hc). destruct (decide (Name c0 ∈ validNames)) as [Hv|];
    [|destruct Hc]. destruct Hc as [<-|[]]. simpl. split; [exact Hv|].
  destruct (bool_decide (Arguments c0 = [] \/ Arguments c0 = B "null")) eqn:E.
  - split; discriminate.
  - apply bool_decide_eq_false in E. split; intros H; apply E; auto.
Qed.

(** Every call [extractToolCalls] returns names a declared tool, and its
    arguments are neither missing nor null. *)
Lemma extractToolCalls_declared content tools c :
  c ∈ extractToolCalls content tools ->
  Name c ∈ declaredNames tools /\ Arguments c <> [] /\ Arguments c <> B "null".
Proof.
  unfold extractToolCalls. fold (declaredNames tools).
  set (text := TrimSpace (stripCodeFences (TrimSpace content))).
  set (whole := match UnmarshalCalls text with
                | Some (c0 :: cs) => keepValid (declaredNames tools) (c0 :: cs)
                | _ => []
                end).
  assert (Hwhole : c ∈ whole -> Name c ∈ declaredNames tools
                     /\ Arguments c <> [] /\ Arguments c <> B "null").
  { unfold whole. destruct (UnmarshalCalls text) as [[|c0 cs]|];
      [intros H; inversion H | apply keepValid_declared | intros H; inversion H]. }
  destruct whole as [|w ws] eqn:Ew; [|exact Hwhole].
  destruct ((0 <=? Index text (B "[")) && (Index text (B "[") <? LastIndex text (B "]"))).
  - destruct (slice text (Index text (B "[")) (LastIndex text (B "]") + 1)) as [sub|].
    + destruct (UnmarshalCalls sub) as [[|c0 cs]|].
      * destruct (UnmarshalCall text) as [single|]; [|intros H; inversion H].
        destruct (bool_decide (Name single <> []) && bool_decide (Name single ∈ declaredNames tools));
          [apply keepValid_declared | intros H; inversion H].
      * apply keepValid_declared.
      * destruct (UnmarshalCall text) as [single|]; [|intros H; inversion H].
        destruct (bool_decide (Name single <> []) && bool_decide (Name single ∈ declaredNames tools));
          [apply keepValid_declared | intros H; inversion H].
    + destruct (UnmarshalCall text) as [single|]; [|intros H; inversion H].
      destruct (bool_decide (Name single <> []) && bool_decide (Name single ∈ declaredNames tools));
        [apply keepValid_declared | intros H; inversion H].
  - destruct (UnmarshalCall text) as [single|]; [|intros H; inversion H].
    destruct (bool_decide (Name single <> []) && bool_decide (Name single ∈ declaredNames tools));
      [apply keepValid_declared | intros H; inversion H].
Qed.

(** Whenever the response decodes to a map without the member choices, the
    guard on an empty choices list is skipped and [choices[0]] panics. *)
Lemma ParseResponse_without_choices respBody resp tools model :
  UnmarshalMap respBody = Some resp -> rawLookup resp (B "choices") = None ->
  ParseResponse toolCallID MarshalToolCalls MarshalMapOrNil MarshalMaps MarshalMap
    respBody tools model
  = Panicked (B "index out of range [0] with length 0").
Proof. intros H1 H2. unfold ParseResponse. rewrite H1, H2. reflexivity. Qed.

(** C9: an upstream reply that is a JSON object without choices holds no
    tool call, and the claim has [ParseResponse] return it unchanged; the
    code indexes the empty choices list and panics. *)
Theorem ParseResponse_panics_on_reply_without_choices (tools : list Tool) (model : bytes) :
  ParseResponse toolCallID MarshalToolCalls MarshalMapOrNil MarshalMaps MarshalMap
    (Q "{'error':'upstream busy'}") tools model
  = Panicked (B "index out of range [0] with length 0")
  /\ ParseResponse toolCallID MarshalToolCalls MarshalMapOrNil MarshalMaps MarshalMap
       (Q "{}") tools model
     = Panicked (B "index out of range [0] with length 0")
  /\ ParseResponse toolCallID MarshalToolCalls MarshalMapOrNil MarshalMaps MarshalMap
       (Q "{'choices':[]}") tools model
     = Returned (Q "{'choices':[]}").
Proof.
  split; [vm_compute; reflexivity|]. split; vm_compute; reflexivity.
Qed.

(** The specification's fifth scenario: a fenced JSON array in the content
    of the first choice becomes one tool call. *)
Lemma scenario_tool_call_round_trip :
  Toolsim.ParseResponse (fun _ => B "call_0123456789abcdef01234567")
    writeToolCalls Messages.writeMap Messages.writeMaps
    (fun m => Some (Messages.writeMap m))
    (Q "{'choices':[{'message':{'role':'assistant','content':'```json\n[{\'name\':\'get_weather\',\'arguments\':{\'location\':\'Berlin\'}}]\n```'},'finish_reason':'stop'}]}")
    [{| toolType := B "function";
        toolFunction := {| fnName := B "get_weather"; fnDescription := [];
                           fnParameters := [] |} |}]
    (B "m")
  = Returned
      (Q "{'choices':[{'finish_reason':'tool_calls','message':{'content':null,'tool_calls':[{'id':'call_0123456789abcdef01234567','type':'function','function':{'name':'get_weather','arguments':'{\'location\':\'Berlin\'}'}}],'role':'assistant'}}]}").
Proof. vm_compute. reflexivity. Qed.

End ToolCalls.

